(** * regen-ledger: primary keys, index key codecs, sequences and decimals

    A shallow embedding of the storage-key layer of package [orm]
    (orm/primary_key.go and the two index key codecs), of the storage
    prefixes of the group module (x/group/server/server.go), of the
    decimal scenarios of [TestDec] in package [math], of the validation of
    the messages of x/ecocredit/msgs.go, of the merge of signers of
    [SignData] and of [contains] of the ecocredit simulation.

    Conventions.
    - A Go [byte] is a [Z]; conversions to [uint8] and [uint64] write the
      wrap-around out ([uint8 n = n mod 256]).
    - A Go [[]byte] is a [list Z].  An [int] is a [Z]: the integers at hand
      are lengths and small constants, far from the bounds of [int].
    - A Go function that can panic returns a [result]; the run-time panics of
      the language itself (index out of range, slice bounds out of range,
      negative [make]) are modelled too.
    - A Go [string] is a [string]; its bytes are the codes of its characters.
    - A Go [(value, error)] pair is a sum: [inl value] or [inr error]; an
      [error] alone is an option, [None] for [nil]. *)

From stdpp Require Import base list gmap strings.
From Stdlib Require Import ZArith Lia QArith Ascii Sorted.

Local Open Scope Z_scope.

(** ** Panics *)

Inductive result (A : Type) : Type :=
  | Ok (a : A)
  | Panic (msg : string).
Arguments Ok {A} a.
Arguments Panic {A} msg.

#[global] Instance result_ret : MRet result := fun A a => Ok a.
#[global] Instance result_bind : MBind result := fun A B f r =>
  match r with
  | Ok a => f a
  | Panic msg => Panic msg
  end.

(** ** Go slices of bytes *)

Abbreviation byte := Z (only parsing).

Definition uint8 (n : Z) : byte := n mod 256.
Definition uint64 (n : Z) : Z := n mod 2 ^ 64.

(** [len(s)] *)
Definition len (s : list byte) : Z := Z.of_nat (length s).

(** [make([]byte, n)]: [n] zero bytes; a negative length panics. *)
Definition make (n : Z) : result (list byte) :=
  if n <? 0 then Panic "makeslice: len out of range"
  else Ok (replicate (Z.to_nat n) 0).

(** [copy(dst, src)]: the first [min(len(dst), len(src))] bytes of [dst] are
    overwritten; the value is the new content of [dst]. *)
Definition copy (dst src : list byte) : list byte :=
  take (length dst) src ++ drop (length src) dst.

(** [s[low:]]; panics unless [0 <= low <= len(s)]. *)
Definition slice_from (s : list byte) (low : Z) : result (list byte) :=
  if (low <? 0) || (len s <? low) then Panic "slice bounds out of range"
  else Ok (drop (Z.to_nat low) s).

(** [copy(dst[low:], src)]: the write goes through the sub-slice into [dst]
    itself; the value is the new content of [dst]. *)
Definition copy_from (dst : list byte) (low : Z) (src : list byte)
  : result (list byte) :=
  tail ← slice_from dst low;
  Ok (take (Z.to_nat low) dst ++ copy tail src).

(** [s[i]]; panics when [i] is out of range. *)
Definition index (s : list byte) (i : Z) : result byte :=
  if i <? 0 then Panic "index out of range"
  else match s !! Z.to_nat i with
       | Some b => Ok b
       | None => Panic "index out of range"
       end.

(** The bytes of a Go string. *)
Definition string_bytes (s : string) : list byte :=
  (fun c => Z.of_N (Ascii.N_of_ascii c)) <$> String.list_ascii_of_string s.

(** ** orm/primary_key.go *)

(** [AddLengthPrefix] *)
Definition AddLengthPrefix (bytes : list byte) : result (list byte) :=
  let byteLen := len bytes in
  if 255 <? byteLen then
    Panic "Cannot create primary key with an []byte of length greater than 255 bytes. Try again with a smaller []byte."
  else
    prefixedBytes ← make (1 + len bytes);
    let prefixedBytes := copy prefixedBytes [uint8 byteLen] in
    copy_from prefixedBytes 1 bytes.

(** [NullTerminatedBytes] *)
Definition NullTerminatedBytes (s : string) : result (list byte) :=
  bytes ← make (len (string_bytes s) + 1);
  Ok (copy bytes (string_bytes s)).

(** Modelled from the spec: [EncodeSequence] is declared in orm/sequence.go,
    which is not among the sources at hand.  Section 6 of the specification
    fixes its layout: a sequence value is an "8-byte big-endian unsigned
    integer", most significant byte first. *)
Definition EncodeSequence (val : Z) : list byte :=
  (fun i => uint8 (Z.shiftr (uint64 val) (8 * i))) <$> [7; 6; 5; 4; 3; 2; 1; 0].

(** The dynamic values an [interface{}] primary-key part can hold.  Only the
    first three are accepted by [primaryKeyFieldBytes]; the others stand for
    the remaining run-time types a schema could hand in. *)
Inductive value : Type :=
  | VBytes (v : list byte)     (* []byte *)
  | VString (v : string)       (* string *)
  | VUint64 (v : Z)            (* uint64 *)
  | VUint32 (v : Z)            (* uint32 *)
  | VInt (v : Z)               (* int *)
  | VBool (v : bool)           (* bool *)
  | VNil.                      (* nil interface *)

(** The [%T] verb of [fmt.Sprintf]. *)
Definition type_name (v : value) : string :=
  match v with
  | VBytes _ => "[]uint8"
  | VString _ => "string"
  | VUint64 _ => "uint64"
  | VUint32 _ => "uint32"
  | VInt _ => "int"
  | VBool _ => "bool"
  | VNil => "<nil>"
  end.

(** [primaryKeyFieldBytes] *)
Definition primaryKeyFieldBytes (field : value) : result (list byte) :=
  match field with
  | VBytes v => AddLengthPrefix v
  | VString v => NullTerminatedBytes v
  | VUint64 v => Ok (EncodeSequence v)
  | v => Panic ("Type " +:+ type_name v +:+ " not allowed as primary key field")
  end.

(** First loop of [buildPrimaryKey]: [bytesSlice[i] = primaryKeyFieldBytes(field)],
    left to right; the first panic ends the call. *)
Fixpoint fieldsBytes (fields : list value) : result (list (list byte)) :=
  match fields with
  | [] => Ok []
  | field :: rest =>
      bs ← primaryKeyFieldBytes field;
      bss ← fieldsBytes rest;
      Ok (bs :: bss)
  end.

(** [buildPrimaryKey]; the second loop appends each encoding to the key. *)
Definition buildPrimaryKey (fields : list value) : result (list byte) :=
  bytesSlice ← fieldsBytes fields;
  Ok (foldl (fun primaryKey bs => primaryKey ++ bs) [] bytesSlice).

(** [PrimaryKeyed]: an object that knows its primary-key parts.  [TypeOf] is
    the concrete (element) type of the object, as [reflect.TypeOf] sees it. *)
Record PrimaryKeyed : Type := {
  TypeOf : string;
  PrimaryKeyFields : list value;
}.

(** [PrimaryKey] *)
Definition PrimaryKey (obj : PrimaryKeyed) : result (list byte) :=
  let fields := PrimaryKeyFields obj in
  buildPrimaryKey fields.

(** ** Index key codecs (package orm) *)

(** The [IndexKeyCodec] interface. *)
Class IndexKeyCodec (C : Type) : Type := {
  BuildIndexKey : C -> list byte -> list byte -> result (list byte);
  StripRowID : C -> list byte -> result (list byte);
}.

(** [type Max255DynamicLengthIndexKeyCodec struct{}] *)
Inductive Max255DynamicLengthIndexKeyCodec : Type :=
  | Max255DynamicLengthIndexKeys.

Module Max255DynamicLength.

Definition BuildIndexKey (searchableKey rowID : list byte)
  : result (list byte) :=
  let rowIDLen := len rowID in
  if rowIDLen =? 0 then Panic "Empty RowID"
  else
    let searchableKeyLen := len searchableKey in
    res ← make (1 + searchableKeyLen + rowIDLen);
    prefixed ← AddLengthPrefix searchableKey;
    let res := copy res prefixed in
    copy_from res (1 + searchableKeyLen) rowID.

(** [searchableKeyLen] is a [byte], so [1+searchableKeyLen] is computed in
    [uint8]. *)
Definition StripRowID (persistentIndexKey : list byte) : result (list byte) :=
  searchableKeyLen ← index persistentIndexKey 0;
  slice_from persistentIndexKey (uint8 (1 + searchableKeyLen)).

End Max255DynamicLength.

#[global] Instance Max255DynamicLength_codec
  : IndexKeyCodec Max255DynamicLengthIndexKeyCodec := {
  BuildIndexKey _ := Max255DynamicLength.BuildIndexKey;
  StripRowID _ := Max255DynamicLength.StripRowID;
}.

(** [type FixLengthIndexKeyCodec struct { rowIDLength int }] *)
Record FixLengthIndexKeyCodec : Type := FixLengthIndexKeys {
  rowIDLength : Z;
}.

Module FixLength.

(** The sum [n+c.rowIDLength] is taken in [Z]: the model follows the code
    as long as the sum is one an [int] holds. *)
Definition BuildIndexKey (c : FixLengthIndexKeyCodec)
    (searchableKey rowID : list byte) : result (list byte) :=
  let n := len rowID in
  if n =? 0 then Panic "Empty RowID"
  else if rowIDLength c <? n then Panic "RowID exceeds max size"
  else
    let n := len searchableKey in
    res ← make (n + rowIDLength c);
    let res := copy res searchableKey in
    copy_from res n rowID.

Definition StripRowID (c : FixLengthIndexKeyCodec)
    (persistentIndexKey : list byte) : result (list byte) :=
  let n := len persistentIndexKey in
  slice_from persistentIndexKey (n - rowIDLength c).

End FixLength.

#[global] Instance FixLength_codec : IndexKeyCodec FixLengthIndexKeyCodec := {
  BuildIndexKey := FixLength.BuildIndexKey;
  StripRowID := FixLength.StripRowID;
}.

(** ** The table behind a [PrimaryKeyTable] *)

(** The key-value store of a context: byte-string keys, byte-string values. *)
Abbreviation KVStore := (gmap (list Z) (list Z)).

Inductive error : Type :=
  | ErrType                 (* orm: wrong model type *)
  | ErrInvalidDecString     (* math: malformed decimal text *)
  | ErrInvalidRequest       (* math: negative operand of SafeAddBalance *)
  | ErrInsufficientFunds    (* math: SafeSubBalance below zero *)
  | ErrDecimalArithmetic.   (* math: any other failure of the arithmetic *)

(** [type table struct]: the fields used here are the storage prefix and the
    model type the table was built for. *)
Record table : Type := {
  prefix : byte;
  model : string;
}.

(** [type PrimaryKeyTable struct { table table }] *)
Record PrimaryKeyTable : Type := {
  ptable : table;
}.

(** [assertCorrectType] and [table.Has] are declared in orm/table.go, which
    is not among the sources at hand: the methods of [PrimaryKeyTable] are
    modelled over any implementation of the two. *)
Section PrimaryKeyTableMethods.

Variable assertCorrectType : string -> PrimaryKeyed -> option error.
Variable table_Has : table -> KVStore -> list byte -> bool.

(** [PrimaryKeyTable.Has] *)
Definition Has (a : PrimaryKeyTable) (ctx : KVStore) (primaryKey : list byte)
  : bool :=
  table_Has (ptable a) ctx primaryKey.

(** [PrimaryKeyTable.Contains] *)
Definition Contains (a : PrimaryKeyTable) (ctx : KVStore) (obj : PrimaryKeyed)
  : result bool :=
  match assertCorrectType (model (ptable a)) obj with
  | Some err => Ok false
  | None =>
      rowID ← PrimaryKey obj;
      Ok (table_Has (ptable a) ctx rowID)
  end.

End PrimaryKeyTableMethods.

(** The contract [Contains] relies on ("an object with same type"): the
    check fails whenever the type of the object is not the model type. *)
Definition rejects_other_types
    (assertCorrectType : string -> PrimaryKeyed -> option error) : Prop :=
  forall (model : string) (obj : PrimaryKeyed),
    TypeOf obj <> model -> assertCorrectType model obj <> None.

(** One implementation of each, to run [Contains] on: the type check compares
    the two types, and a row is present when the store holds a value under
    the prefix of the table followed by the row identifier. *)
Definition sameTypeCheck (model : string) (obj : PrimaryKeyed) : option error :=
  if decide (model = TypeOf obj) then None else Some ErrType.

Definition storeHas (a : table) (ctx : KVStore) (key : list byte) : bool :=
  bool_decide (is_Some (ctx !! (prefix a :: key))).

(** ** Order of keys in the store *)

(** The key-value store orders its keys as [bytes.Compare] does: byte by
    byte, unsigned, a proper prefix before its extensions. *)
Fixpoint bytes_Compare (a b : list byte) : comparison :=
  match a, b with
  | [], [] => Eq
  | [], _ :: _ => Lt
  | _ :: _, [] => Gt
  | x :: a', y :: b' =>
      match x ?= y with
      | Eq => bytes_Compare a' b'
      | c => c
      end
  end.

(** ** x/group/server/server.go: storage prefixes *)

Module GroupPrefixes.

(* Group Table *)
Definition GroupTablePrefix : byte := 0x0.
Definition GroupTableSeqPrefix : byte := 0x1.
Definition GroupByAdminIndexPrefix : byte := 0x2.

(* Group Member Table *)
Definition GroupMemberTablePrefix : byte := 0x10.
Definition GroupMemberByGroupIndexPrefix : byte := 0x11.
Definition GroupMemberByMemberIndexPrefix : byte := 0x12.

(* Group Account Table *)
Definition GroupAccountTablePrefix : byte := 0x20.
Definition GroupAccountTableSeqPrefix : byte := 0x21.
Definition GroupAccountByGroupIndexPrefix : byte := 0x22.
Definition GroupAccountByAdminIndexPrefix : byte := 0x23.

(* Proposal Table *)
Definition ProposalTablePrefix : byte := 0x30.
Definition ProposalTableSeqPrefix : byte := 0x31.
Definition ProposalByGroupAccountIndexPrefix : byte := 0x32.
Definition ProposalByProposerIndexPrefix : byte := 0x33.

(* Vote Table *)
Definition VoteTablePrefix : byte := 0x40.
Definition VoteByProposalIndexPrefix : byte := 0x41.
Definition VoteByVoterIndexPrefix : byte := 0x42.

(** Every prefix of the [const] block, in the order of declaration. *)
Definition all : list byte :=
  [ GroupTablePrefix; GroupTableSeqPrefix; GroupByAdminIndexPrefix;
    GroupMemberTablePrefix; GroupMemberByGroupIndexPrefix;
    GroupMemberByMemberIndexPrefix;
    GroupAccountTablePrefix; GroupAccountTableSeqPrefix;
    GroupAccountByGroupIndexPrefix; GroupAccountByAdminIndexPrefix;
    ProposalTablePrefix; ProposalTableSeqPrefix;
    ProposalByGroupAccountIndexPrefix; ProposalByProposerIndexPrefix;
    VoteTablePrefix; VoteByProposalIndexPrefix; VoteByVoterIndexPrefix ].

End GroupPrefixes.

(** ** Sequence *)

(** Modelled from the spec: the [Sequence] type is declared in
    orm/sequence.go, which is not among the sources at hand.  Section 3: "a
    single persisted unsigned integer keyed by a fixed storage prefix";
    section 4.6: "[Sequence.next() -> uint64]: reads current persisted value
    (0 if absent), computes [value+1], persists it, returns it".  The
    specification gives the counter no upper end: section 3 asks of every
    call "a strictly greater value than all prior calls".  The value is the
    number itself. *)
Record Sequence : Type := {
  seqPrefix : byte;
}.

(** Modelled from the spec: the "current persisted value (0 if absent)" of
    the sequence; the store maps the storage prefix of a sequence to its
    value. *)
Definition Sequence_cur (s : Sequence) (ctx : gmap Z Z) : Z :=
  default 0 (ctx !! seqPrefix s).

(** Modelled from the spec: [Sequence.next()], section 4.6, with the store
    passed in and out. *)
Definition Sequence_next (s : Sequence) (ctx : gmap Z Z) : Z * gmap Z Z :=
  let seq := Sequence_cur s ctx + 1 in
  (seq, <[seqPrefix s := seq]> ctx).

(** [n] calls in a row on the same store; the values returned, first call
    first, and the store after the last call. *)
Fixpoint Sequence_nexts (n : nat) (s : Sequence) (ctx : gmap Z Z)
  : list Z * gmap Z Z :=
  match n with
  | O => ([], ctx)
  | S n' =>
      let '(v, ctx1) := Sequence_next s ctx in
      let '(vs, ctx2) := Sequence_nexts n' s ctx1 in
      (v :: vs, ctx2)
  end.

(** ** types/math: decimals *)

Module math.

(** Modelled from the spec: the [Dec] type and its operations are declared in
    types/math/dec.go, which is not among the sources at hand (its test is).
    Section 3: a decimal value is "a sign, an unscaled integer magnitude of
    unbounded precision, and an implied decimal point position (a count of
    fractional digits derived from its textual representation)"; "the zero
    value has no sign".  A signed [Z] is the sign and the magnitude. *)
Record Dec : Type := {
  unscaled : Z;
  places : nat;
}.

(** Modelled from the spec: [NewDecFromInt64] is declared in
    types/math/dec.go; the test builds its integers with it.  An integer has
    no fractional digit. *)
Definition NewDecFromInt64 (x : Z) : Dec := {| unscaled := x; places := 0 |}.

(** The value of a decimal digit. *)
Definition digitValue (c : Ascii.ascii) : option Z :=
  let n := Z.of_N (Ascii.N_of_ascii c) in
  if (48 <=? n) && (n <=? 57) then Some (n - 48) else None.

(** The number a run of digits denotes, most significant digit first; no
    value when a character is not a digit. *)
Fixpoint parseDigits (cs : list Ascii.ascii) (acc : Z) : option Z :=
  match cs with
  | [] => Some acc
  | c :: rest =>
      match digitValue c with
      | Some d => parseDigits rest (acc * 10 + d)
      | None => None
      end
  end.

(** The digits before the first point and, when there is a point, what
    follows it. *)
Fixpoint splitPoint (cs : list Ascii.ascii) : list Ascii.ascii * option (list Ascii.ascii) :=
  match cs with
  | [] => ([], None)
  | c :: rest =>
      if Ascii.eqb c "."%char then ([], Some rest)
      else let '(ip, fp) := splitPoint rest in (c :: ip, fp)
  end.

(** Modelled from the spec: section 6, decimal text is an "optional leading
    [-], digits, optional [.] followed by digits; no exponent notation";
    anything else is a parse error. *)
Definition NewDecFromString (s : string) : Dec + error :=
  let cs := String.list_ascii_of_string s in
  let '(neg, body) :=
    match cs with
    | c :: rest => if Ascii.eqb c "-"%char then (true, rest) else (false, cs)
    | [] => (false, cs)
    end in
  let '(ip, fp) := splitPoint body in
  let frac := default [] fp in
  if bool_decide (ip = []) || bool_decide (fp = Some []) then
    inr ErrInvalidDecString
  else
    match parseDigits (ip ++ frac) 0 with
    | Some m =>
        inl {| unscaled := if neg then - m else m; places := length frac |}
    | None => inr ErrInvalidDecString
    end.

(** The unscaled integer of [d] once it is written with [p] fractional
    digits ([p] at least [places d]). *)
Definition rescale (d : Dec) (p : nat) : Z :=
  unscaled d * 10 ^ Z.of_nat (p - places d).

(** Modelled from the spec: section 4.7, [add] and [sub] return "an exact
    result (no rounding)"; they have no failure of their own. *)
Definition Add (x y : Dec) : Dec + error :=
  let p := max (places x) (places y) in
  inl {| unscaled := rescale x p + rescale y p; places := p |}.

(** Modelled from the spec: [sub], as [add]. *)
Definition Sub (x y : Dec) : Dec + error :=
  let p := max (places x) (places y) in
  inl {| unscaled := rescale x p - rescale y p; places := p |}.

(** Modelled from the spec: "[cmp] returns {-1,0,1}"; equality "is defined
    on numeric value, not on textual form". *)
Definition Cmp (x y : Dec) : Z :=
  let p := max (places x) (places y) in
  match rescale x p ?= rescale y p with
  | Lt => -1
  | Eq => 0
  | Gt => 1
  end.

(** Modelled from the spec: [isEqual], equality of the values. *)
Definition IsEqual (x y : Dec) : bool := Cmp x y =? 0.

(** Modelled from the spec: section 4.7, "[safeSubBalance(a,b)] fails with an
    insufficient-funds error if [a < b]"; otherwise it is the subtraction. *)
Definition SafeSubBalance (x y : Dec) : Dec + error :=
  if Cmp x y <? 0 then inr ErrInsufficientFunds else Sub x y.

(** The rational number a decimal denotes. *)
Definition DecQ (d : Dec) : Q :=
  unscaled d # Z.to_pos (10 ^ Z.of_nat (places d)).

End math.

(** ** x/ecocredit/simulation/operations.go *)

(** [contains] *)
Fixpoint contains (s : list string) (e : string) : bool :=
  match s with
  | [] => false
  | a :: rest => if decide (a = e) then true else contains rest e
  end.

(** ** x/ecocredit/msgs.go *)

(** Errors as the file builds them with [sdkerrors]:
    [sdkerrors.ErrInvalidRequest.Wrap(d)] is [Wrap ErrInvalidRequest d] and
    [sdkerrors.Wrapf(err, format, ...)] is [Wrap err] of the formatted text.
    [Foreign] stands for the errors made by the functions the file calls. *)
Module sdkerrors.

Inductive t : Type :=
  | ErrInvalidRequest
  | Wrap (err : t) (description : string)
  | Foreign (text : string).

End sdkerrors.

(** What the file imports and what the package declares in other files: the
    messages are validated over any implementation of these.  The messages
    keep the fields [ValidateBasic] and [GetSigners] read; the slices of
    credits and of issuances hold pointers in the source, and are modelled
    for pointers that are not [nil]. *)
Class Imports : Type := {
  (** [sdk.AccAddress] *)
  AccAddress : Type;
  (** [sdk.AccAddressFromBech32] *)
  AccAddressFromBech32 : string -> AccAddress + sdkerrors.t;
  (** [err.Error()] *)
  Error : sdkerrors.t -> string;
  (** [math.Dec] *)
  Decimal : Type;
  (** [math.ParseNonNegativeDecimal] *)
  ParseNonNegativeDecimal : string -> Decimal + sdkerrors.t;
  (** [math.ParsePositiveDecimal] *)
  ParsePositiveDecimal : string -> Decimal + sdkerrors.t;
  (** [Dec.IsZero] *)
  IsZero : Decimal -> bool;
  (** [ValidateClassID] *)
  ValidateClassID : string -> option sdkerrors.t;
  (** [validateLocation] *)
  validateLocation : string -> option sdkerrors.t;
  (** [t.Format("2006-01-02")] of a [time.Time] *)
  FormatDate : Z -> string;
}.

Module MsgCreateClass.
Section Methods.
Context `{Imports}.

Record t : Type := {
  Admin : string;
  Issuers : list string;
  CreditType : string;
}.

(** The first loop over [m.Issuers]. *)
Fixpoint issuersLoop1 (issuers : list string) : option sdkerrors.t :=
  match issuers with
  | [] => None
  | issuer :: rest =>
      match AccAddressFromBech32 issuer with
      | inr err => Some (sdkerrors.Wrap sdkerrors.ErrInvalidRequest (Error err))
      | inl _ => issuersLoop1 rest
      end
  end.

(** The second loop over [m.Issuers]. *)
Fixpoint issuersLoop2 (issuers : list string) : option sdkerrors.t :=
  match issuers with
  | [] => None
  | issuer :: rest =>
      match AccAddressFromBech32 issuer with
      | inr err => Some (sdkerrors.Wrap err ("issuer: " +:+ issuer))
      | inl _ => issuersLoop2 rest
      end
  end.

Definition ValidateBasic (m : t) : option sdkerrors.t :=
  match AccAddressFromBech32 (Admin m) with
  | inr err => Some (sdkerrors.Wrap err "admin")
  | inl _ =>
      if (length (Issuers m) =? 0)%nat then
        Some (sdkerrors.Wrap sdkerrors.ErrInvalidRequest "issuers cannot be empty")
      else if (String.length (CreditType m) =? 0)%nat then
        Some (sdkerrors.Wrap sdkerrors.ErrInvalidRequest "credit class must have a credit type")
      else
        match issuersLoop1 (Issuers m) with
        | Some err => Some err
        | None => issuersLoop2 (Issuers m)
        end
  end.

Definition GetSigners (m : t) : result (list AccAddress) :=
  match AccAddressFromBech32 (Admin m) with
  | inr err => Panic (Error err)
  | inl addr => Ok [addr]
  end.

End Methods.
End MsgCreateClass.

Module MsgCreateBatch.
Section Methods.
Context `{Imports}.

(** [MsgCreateBatch_BatchIssuance] *)
Record BatchIssuance : Type := {
  Recipient : string;
  TradableAmount : string;
  RetiredAmount : string;
  RetirementLocation : string;
}.

(** The dates are pointers to [time.Time]: [None] is [nil], and an instant is
    a number; [Before] is [<] on instants. *)
Record t : Type := {
  Issuer : string;
  ClassId : string;
  Issuance : list BatchIssuance;
  StartDate : option Z;
  EndDate : option Z;
  ProjectLocation : string;
}.

(** One turn of the loop over [m.Issuance]. *)
Definition checkIssuance (iss : BatchIssuance) : option sdkerrors.t :=
  match AccAddressFromBech32 (Recipient iss) with
  | inr err => Some (sdkerrors.Wrap sdkerrors.ErrInvalidRequest (Error err))
  | inl _ =>
      match
        (if decide (TradableAmount iss <> "") then
           match ParseNonNegativeDecimal (TradableAmount iss) with
           | inr err => Some err
           | inl _ => None
           end
         else None)
      with
      | Some err => Some err
      | None =>
          if decide (RetiredAmount iss <> "") then
            match ParseNonNegativeDecimal (RetiredAmount iss) with
            | inr err => Some err
            | inl retiredAmount =>
                if negb (IsZero retiredAmount) then
                  validateLocation (RetirementLocation iss)
                else None
            end
          else None
      end
  end.

(** The loop over [m.Issuance]. *)
Fixpoint issuanceLoop (issuance : list BatchIssuance) : option sdkerrors.t :=
  match issuance with
  | [] => None
  | iss :: rest =>
      match checkIssuance iss with
      | Some err => Some err
      | None => issuanceLoop rest
      end
  end.

Definition ValidateBasic (m : t) : option sdkerrors.t :=
  match AccAddressFromBech32 (Issuer m) with
  | inr err => Some (sdkerrors.Wrap err "issuer")
  | inl _ =>
      match StartDate m, EndDate m with
      | None, _ =>
          Some (sdkerrors.Wrap sdkerrors.ErrInvalidRequest
                  "must provide a start date for the credit batch")
      | Some _, None =>
          Some (sdkerrors.Wrap sdkerrors.ErrInvalidRequest
                  "must provide an end date for the credit batch")
      | Some startDate, Some endDate =>
          if endDate <? startDate then
            Some (sdkerrors.Wrap sdkerrors.ErrInvalidRequest
                    ("the batch end date (" +:+ FormatDate endDate
                     +:+ ") must be the same as or after the batch start date ("
                     +:+ FormatDate startDate +:+ ")"))
          else
            match ValidateClassID (ClassId m) with
            | Some err => Some err
            | None =>
                match validateLocation (ProjectLocation m) with
                | Some err => Some err
                | None => issuanceLoop (Issuance m)
                end
            end
      end
  end.

Definition GetSigners (m : t) : result (list AccAddress) :=
  match AccAddressFromBech32 (Issuer m) with
  | inr err => Panic (Error err)
  | inl addr => Ok [addr]
  end.

End Methods.
End MsgCreateBatch.

Module MsgSend.
Section Methods.
Context `{Imports}.

(** [MsgSend_SendCredits] *)
Record SendCredits : Type := {
  BatchDenom : string;
  TradableAmount : string;
  RetiredAmount : string;
  RetirementLocation : string;
}.

Record t : Type := {
  Sender : string;
  Recipient : string;
  Credits : list SendCredits;
}.

(** One turn of the loop over [m.Credits]. *)
Definition checkCredit (credit : SendCredits) : option sdkerrors.t :=
  if decide (BatchDenom credit = "") then
    Some (sdkerrors.Wrap sdkerrors.ErrInvalidRequest "batch denom should not be empty")
  else
    match ParseNonNegativeDecimal (TradableAmount credit) with
    | inr err => Some err
    | inl _ =>
        match ParseNonNegativeDecimal (RetiredAmount credit) with
        | inr err => Some err
        | inl retiredAmount =>
            if negb (IsZero retiredAmount) then
              validateLocation (RetirementLocation credit)
            else None
        end
    end.

(** The loop over [m.Credits]. *)
Fixpoint creditsLoop (credits : list SendCredits) : option sdkerrors.t :=
  match credits with
  | [] => None
  | credit :: rest =>
      match checkCredit credit with
      | Some err => Some err
      | None => creditsLoop rest
      end
  end.

Definition ValidateBasic (m : t) : option sdkerrors.t :=
  match AccAddressFromBech32 (Sender m) with
  | inr err => Some (sdkerrors.Wrap err "sender")
  | inl _ =>
      match AccAddressFromBech32 (Recipient m) with
      | inr err => Some (sdkerrors.Wrap sdkerrors.ErrInvalidRequest (Error err))
      | inl _ =>
          if (length (Credits m) =? 0)%nat then
            Some (sdkerrors.Wrap sdkerrors.ErrInvalidRequest "credits should not be empty")
          else creditsLoop (Credits m)
      end
  end.

Definition GetSigners (m : t) : result (list AccAddress) :=
  match AccAddressFromBech32 (Sender m) with
  | inr err => Panic (Error err)
  | inl addr => Ok [addr]
  end.

End Methods.
End MsgSend.

Module MsgRetire.
Section Methods.
Context `{Imports}.

(** [MsgRetire_RetireCredits] *)
Record RetireCredits : Type := {
  BatchDenom : string;
  Amount : string;
}.

Record t : Type := {
  Holder : string;
  Credits : list RetireCredits;
  Location : string;
}.

(** The loop over [m.Credits]. *)
Fixpoint creditsLoop (credits : list RetireCredits) : option sdkerrors.t :=
  match credits with
  | [] => None
  | credit :: rest =>
      if decide (BatchDenom credit = "") then
        Some (sdkerrors.Wrap sdkerrors.ErrInvalidRequest "batch denom should not be empty")
      else
        match ParsePositiveDecimal (Amount credit) with
        | inr err => Some err
        | inl _ => creditsLoop rest
        end
  end.

Definition ValidateBasic (m : t) : option sdkerrors.t :=
  match AccAddressFromBech32 (Holder m) with
  | inr err => Some (sdkerrors.Wrap err "holder")
  | inl _ =>
      if (length (Credits m) =? 0)%nat then
        Some (sdkerrors.Wrap sdkerrors.ErrInvalidRequest "credits should not be empty")
      else
        match creditsLoop (Credits m) with
        | Some err => Some err
        | None => validateLocation (Location m)
        end
  end.

Definition GetSigners (m : t) : result (list AccAddress) :=
  match AccAddressFromBech32 (Holder m) with
  | inr err => Panic (Error err)
  | inl addr => Ok [addr]
  end.

End Methods.
End MsgRetire.

Module MsgCancel.
Section Methods.
Context `{Imports}.

(** [MsgCancel_CancelCredits] *)
Record CancelCredits : Type := {
  BatchDenom : string;
  Amount : string;
}.

Record t : Type := {
  Holder : string;
  Credits : list CancelCredits;
}.

(** The loop over [m.Credits]. *)
Fixpoint creditsLoop (credits : list CancelCredits) : option sdkerrors.t :=
  match credits with
  | [] => None
  | credit :: rest =>
      if decide (BatchDenom credit = "") then
        Some (sdkerrors.Wrap sdkerrors.ErrInvalidRequest "batch denom should not be empty")
      else
        match ParsePositiveDecimal (Amount credit) with
        | inr err => Some err
        | inl _ => creditsLoop rest
        end
  end.

Definition ValidateBasic (m : t) : option sdkerrors.t :=
  match AccAddressFromBech32 (Holder m) with
  | inr err => Some (sdkerrors.Wrap err "holder")
  | inl _ =>
      if (length (Credits m) =? 0)%nat then
        Some (sdkerrors.Wrap sdkerrors.ErrInvalidRequest "credits should not be empty")
      else creditsLoop (Credits m)
  end.

Definition GetSigners (m : t) : result (list AccAddress) :=
  match AccAddressFromBech32 (Holder m) with
  | inr err => Panic (Error err)
  | inl addr => Ok [addr]
  end.

End Methods.
End MsgCancel.

(** An implementation of the imports to run the validations on: an address is
    valid when it starts with "regen", a decimal is a run of digits, a class
    identifier or a location is valid when it is not empty. *)
Definition sampleImports : Imports := {|
  AccAddress := string;
  AccAddressFromBech32 a :=
    if String.prefix "regen" a then inl a
    else inr (sdkerrors.Foreign "decoding bech32 failed");
  Error err :=
    match err with
    | sdkerrors.Foreign text => text
    | _ => "error"
    end;
  Decimal := Z;
  ParseNonNegativeDecimal a :=
    match math.parseDigits (String.list_ascii_of_string a) 0 with
    | Some d => if bool_decide (a = "") then inr (sdkerrors.Foreign "empty") else inl d
    | None => inr (sdkerrors.Foreign "not a decimal")
    end;
  ParsePositiveDecimal a :=
    match math.parseDigits (String.list_ascii_of_string a) 0 with
    | Some d => if d =? 0 then inr (sdkerrors.Foreign "not positive") else inl d
    | None => inr (sdkerrors.Foreign "not a decimal")
    end;
  IsZero d := d =? 0;
  ValidateClassID a :=
    if bool_decide (a = "") then Some (sdkerrors.Foreign "class id") else None;
  validateLocation a :=
    if bool_decide (a = "") then Some (sdkerrors.Foreign "location") else None;
  FormatDate d := "date";
|}.

(** ** x/data/server: the signers of [SignData] *)

(** The two loops of [SignData] that merge the signers of the request into
    the signers stored for the CID: [seen] is built from the stored signers
    and is not extended while the request is gone through. *)
Definition mergeSigners (stored request : list string) : list string :=
  let seen :=
    foldl (fun (seen : gmap string bool) signer => <[signer := true]> seen)
      ∅ stored in
  foldl (fun signers signer =>
           match seen !! signer with
           | Some _ => signers
           | None => signers ++ [signer]
           end)
    stored request.

(** ** Vocabulary of the statements *)

(** A primary-key part the encoder is meant for: a byte string that the
    one-byte length prefix can describe, a string without the terminator
    inside, an unsigned 64-bit integer. *)
Definition field_ok (f : value) : Prop :=
  match f with
  | VBytes v => len v <= 255
  | VString v => 0 ∉ string_bytes v
  | VUint64 v => 0 <= v < 2 ^ 64
  | _ => False
  end.

(** Two parts of the same dynamic type. *)
Definition same_kind (f g : value) : Prop := type_name f = type_name g.

(** The bytes [primaryKeyFieldBytes] produces for a part that satisfies
    [field_ok], in closed form (see [primaryKeyFieldBytes_ok]). *)
Definition fieldEncoding (f : value) : list byte :=
  match f with
  | VBytes v => len v :: v
  | VString v => string_bytes v ++ [0]
  | VUint64 v => EncodeSequence v
  | _ => []
  end.

(** A byte in the range of [uint8]. *)
Definition is_byte (b : Z) : Prop := 0 <= b < 256.

(** The number a byte string denotes when read most significant byte first. *)
Fixpoint bigEndianValue (bs : list byte) : Z :=
  match bs with
  | [] => 0
  | b :: rest => b * 256 ^ len rest + bigEndianValue rest
  end.

(** A primary-key part [primaryKeyFieldBytes] encodes without a panic: a
    byte string of at most 255 bytes, any string, any [uint64]. *)
Definition field_accepted (f : value) : Prop :=
  match f with
  | VBytes v => len v <= 255
  | VString _ => True
  | VUint64 _ => True
  | _ => False
  end.

(** What [ValidateBasic] asks of the parts of a message. *)
Section MessageVocabulary.
Context `{Imports}.

(** An address [sdk.AccAddressFromBech32] accepts. *)
Definition valid_address (a : string) : Prop :=
  exists addr, AccAddressFromBech32 a = inl addr.

(** A credit the loop of [MsgCancel.ValidateBasic] lets through. *)
Definition cancel_credit_ok (credit : MsgCancel.CancelCredits) : Prop :=
  MsgCancel.BatchDenom credit <> ""
  /\ exists amount, ParsePositiveDecimal (MsgCancel.Amount credit) = inl amount.

(** A credit the loop of [MsgRetire.ValidateBasic] lets through. *)
Definition retire_credit_ok (credit : MsgRetire.RetireCredits) : Prop :=
  MsgRetire.BatchDenom credit <> ""
  /\ exists amount, ParsePositiveDecimal (MsgRetire.Amount credit) = inl amount.

(** A retired amount of zero, or a valid retirement location. *)
Definition retirement_ok (retiredAmount : Decimal) (location : string) : Prop :=
  IsZero retiredAmount = false -> validateLocation location = None.

(** A credit the loop of [MsgSend.ValidateBasic] lets through. *)
Definition send_credit_ok (credit : MsgSend.SendCredits) : Prop :=
  MsgSend.BatchDenom credit <> ""
  /\ (exists tradable,
        ParseNonNegativeDecimal (MsgSend.TradableAmount credit) = inl tradable)
  /\ (exists retired,
        ParseNonNegativeDecimal (MsgSend.RetiredAmount credit) = inl retired
        /\ retirement_ok retired (MsgSend.RetirementLocation credit)).

(** An issuance the loop of [MsgCreateBatch.ValidateBasic] lets through: the
    amounts are looked at only when they are not empty. *)
Definition issuance_ok (iss : MsgCreateBatch.BatchIssuance) : Prop :=
  valid_address (MsgCreateBatch.Recipient iss)
  /\ (MsgCreateBatch.TradableAmount iss <> "" ->
      exists tradable,
        ParseNonNegativeDecimal (MsgCreateBatch.TradableAmount iss)
          = inl tradable)
  /\ (MsgCreateBatch.RetiredAmount iss <> "" ->
      exists retired,
        ParseNonNegativeDecimal (MsgCreateBatch.RetiredAmount iss)
          = inl retired
        /\ retirement_ok retired (MsgCreateBatch.RetirementLocation iss)).

End MessageVocabulary.

(** ** Proof automation *)

(** Replace a closed term by its value, in the goal and the hypotheses. *)
Ltac eval_closed t :=
  let x := eval vm_compute in t in change t with x in *.

(** * Properties *)

(** ** Slice primitives *)

Lemma len_nonneg (s : list byte) : 0 <= len s.
Proof. unfold len. lia. Qed.

Lemma make_Ok (n : Z) : 0 <= n -> make n = Ok (replicate (Z.to_nat n) 0).
Proof. intros Hn. unfold make. destruct (Z.ltb_spec n 0); [lia | done]. Qed.

Lemma copy_fits (dst src : list byte) :
  (length src <= length dst)%nat -> copy dst src = src ++ drop (length src) dst.
Proof. intros Hle. unfold copy. by rewrite take_ge. Qed.

Lemma copy_exact (dst src : list byte) :
  length src = length dst -> copy dst src = src.
Proof.
  intros Heq. rewrite copy_fits by lia.
  rewrite drop_ge by lia. apply app_nil_r.
Qed.

Lemma slice_from_Ok (s : list byte) (low : Z) :
  0 <= low <= len s -> slice_from s low = Ok (drop (Z.to_nat low) s).
Proof.
  intros [Hlo Hhi]. unfold slice_from.
  destruct (Z.ltb_spec low 0); [lia |].
  destruct (Z.ltb_spec (len s) low); [lia | done].
Qed.

Lemma copy_from_exact (dst : list byte) (low : Z) (src : list byte) :
  0 <= low -> len dst = low + len src ->
  copy_from dst low src = Ok (take (Z.to_nat low) dst ++ src).
Proof.
  intros Hlo Hlen. unfold copy_from.
  rewrite slice_from_Ok by (pose proof (len_nonneg src); lia). simpl.
  rewrite copy_exact; [done |].
  rewrite length_drop. unfold len in Hlen. lia.
Qed.

(** ** Length prefix *)

Lemma AddLengthPrefix_Ok (b : list byte) :
  len b <= 255 -> AddLengthPrefix b = Ok (len b :: b).
Proof.
  intros Hle. pose proof (len_nonneg b) as Hge. unfold AddLengthPrefix.
  destruct (Z.ltb_spec 255 (len b)); [lia |].
  rewrite make_Ok by lia. simpl.
  replace (Z.to_nat (1 + len b)) with (S (length b)) by (unfold len; lia).
  simpl replicate. unfold copy at 1. simpl. rewrite take_nil. simpl.
  rewrite copy_from_exact; simpl.
  - unfold uint8. by rewrite Z.mod_small by lia.
  - lia.
  - unfold len. rewrite drop_0. cbn [length]. rewrite length_replicate. lia.
Qed.

Lemma AddLengthPrefix_Panic (b : list byte) :
  255 < len b -> exists msg, AddLengthPrefix b = Panic msg.
Proof.
  intros Hgt. unfold AddLengthPrefix.
  destruct (Z.ltb_spec 255 (len b)); [eauto | lia].
Qed.

(** C6. For a byte string of at most 255 bytes [AddLengthPrefix] returns one
    byte holding the length followed by the bytes unchanged; for a longer one
    it panics; so under the length bound the call never panics. *)
Theorem AddLengthPrefix_spec (b : list byte) :
  (len b <= 255 -> AddLengthPrefix b = Ok (len b :: b) /\ 0 <= len b < 256)
  /\ (255 < len b -> exists msg, AddLengthPrefix b = Panic msg)
  /\ (len b <= 255 -> forall msg, AddLengthPrefix b <> Panic msg).
Proof.
  split; [| split].
  - intros Hle. split; [by apply AddLengthPrefix_Ok |].
    pose proof (len_nonneg b). lia.
  - apply AddLengthPrefix_Panic.
  - intros Hle msg. by rewrite AddLengthPrefix_Ok.
Qed.

Lemma AddLengthPrefix_spec_witness :
  AddLengthPrefix [97; 98; 99] = Ok [3; 97; 98; 99]
  /\ (exists msg, AddLengthPrefix (replicate 256 0) = Panic msg).
Proof.
  destruct (AddLengthPrefix_spec [97; 98; 99]) as (Hok & _ & _).
  destruct (AddLengthPrefix_spec (replicate 256 0)) as (_ & Hpanic & _).
  split.
  - apply Hok. by vm_compute.
  - apply Hpanic. by vm_compute.
Defined.

(** ** Index key codecs *)

Lemma copy_from_fits (dst : list byte) (low : Z) (src : list byte) :
  0 <= low -> low + len src <= len dst ->
  copy_from dst low src =
    Ok (take (Z.to_nat low) dst ++ src
          ++ drop (Z.to_nat low + length src) dst).
Proof.
  intros Hlo Hlen. pose proof (len_nonneg src) as Hsrc. unfold copy_from.
  rewrite slice_from_Ok by lia. simpl.
  unfold len in *. rewrite copy_fits by (rewrite length_drop; lia).
  by rewrite drop_drop.
Qed.

Lemma len_app (a b : list byte) : len (a ++ b) = len a + len b.
Proof. unfold len. rewrite length_app. lia. Qed.

Lemma len_nil_iff (a : list byte) : len a = 0 <-> a = [].
Proof. unfold len. destruct a; simpl; split; intros; try done; lia. Qed.

Lemma Max255_BuildIndexKey_Ok (searchableKey rowID : list byte) :
  rowID <> [] -> len searchableKey <= 255 ->
  Max255DynamicLength.BuildIndexKey searchableKey rowID =
    Ok (len searchableKey :: searchableKey ++ rowID).
Proof.
  intros Hne Hle. unfold Max255DynamicLength.BuildIndexKey.
  pose proof (len_nonneg searchableKey) as Hk.
  pose proof (len_nonneg rowID) as Hr.
  destruct (Z.eqb_spec (len rowID) 0) as [H0 | H0].
  { by apply len_nil_iff in H0. }
  rewrite make_Ok by lia. simpl.
  rewrite AddLengthPrefix_Ok by done. simpl.
  rewrite copy_fits by (cbn [length]; rewrite length_replicate; unfold len; lia).
  rewrite copy_from_exact.
  - f_equal. replace (Z.to_nat (1 + len searchableKey))
      with (length (len searchableKey :: searchableKey))
      by (cbn [length]; unfold len; lia).
    by rewrite take_app_length.
  - lia.
  - rewrite len_app. unfold len. cbn [length].
    rewrite length_drop, length_replicate. lia.
Qed.

Lemma Max255_StripRowID_Ok (searchableKey rowID : list byte) :
  len searchableKey < 255 ->
  Max255DynamicLength.StripRowID (len searchableKey :: searchableKey ++ rowID)
    = Ok rowID.
Proof.
  intros Hlt. pose proof (len_nonneg searchableKey) as Hk.
  unfold Max255DynamicLength.StripRowID, index. simpl.
  unfold uint8. rewrite Z.mod_small by lia.
  rewrite slice_from_Ok.
  - f_equal. replace (Z.to_nat (1 + len searchableKey))
      with (S (length searchableKey)) by (unfold len; lia).
    simpl. by rewrite drop_app_length.
  - pose proof (len_nonneg rowID). unfold len in *. cbn [length].
    rewrite length_app. lia.
Qed.

(** The byte-sized sum wraps at a searchable key of exactly 255 bytes: the
    whole index key comes back. *)
Lemma Max255_StripRowID_255 (searchableKey rowID : list byte) :
  len searchableKey = 255 ->
  Max255DynamicLength.StripRowID (len searchableKey :: searchableKey ++ rowID)
    = Ok (len searchableKey :: searchableKey ++ rowID).
Proof.
  intros Heq. unfold Max255DynamicLength.StripRowID, index. simpl.
  rewrite Heq. by rewrite slice_from_Ok by (split; [done | apply len_nonneg]).
Qed.

Lemma FixLength_BuildIndexKey_Ok (c : FixLengthIndexKeyCodec)
    (searchableKey rowID : list byte) :
  rowID <> [] -> len rowID <= rowIDLength c ->
  FixLength.BuildIndexKey c searchableKey rowID =
    Ok (searchableKey ++ rowID
          ++ replicate (Z.to_nat (rowIDLength c - len rowID)) 0).
Proof.
  intros Hne Hle. unfold FixLength.BuildIndexKey.
  pose proof (len_nonneg searchableKey) as Hk.
  pose proof (len_nonneg rowID) as Hr.
  destruct (Z.eqb_spec (len rowID) 0) as [H0 | H0].
  { by apply len_nil_iff in H0. }
  destruct (Z.ltb_spec (rowIDLength c) (len rowID)); [lia |].
  rewrite make_Ok by lia. simpl.
  rewrite copy_fits by (rewrite length_replicate; unfold len; lia).
  rewrite copy_from_fits.
  - f_equal. unfold len.
    rewrite Nat2Z.id, take_app_length. f_equal. f_equal.
    rewrite drop_app_ge by lia. rewrite !drop_replicate. f_equal.
    unfold len in *. lia.
  - lia.
  - rewrite len_app. unfold len in *.
    rewrite length_drop, length_replicate. lia.
Qed.

Lemma FixLength_StripRowID_Ok (c : FixLengthIndexKeyCodec)
    (searchableKey suffix : list byte) :
  len suffix = rowIDLength c ->
  FixLength.StripRowID c (searchableKey ++ suffix) = Ok suffix.
Proof.
  intros Hlen. unfold FixLength.StripRowID.
  pose proof (len_nonneg searchableKey) as Hk.
  pose proof (len_nonneg suffix) as Hs.
  rewrite len_app, slice_from_Ok by (rewrite ?len_app; lia).
  f_equal. replace (Z.to_nat (len searchableKey + len suffix - rowIDLength c))
    with (length searchableKey) by (unfold len in *; lia).
  by rewrite drop_app_length.
Qed.

(** What the fixed-length codec gives back in general: the row identifier
    padded with zero bytes up to the declared length. *)
Lemma FixLength_roundtrip_padded (c : FixLengthIndexKeyCodec)
    (searchableKey rowID : list byte) :
  rowID <> [] -> len rowID <= rowIDLength c ->
  FixLength.BuildIndexKey c searchableKey rowID ≫= FixLength.StripRowID c
    = Ok (rowID ++ replicate (Z.to_nat (rowIDLength c - len rowID)) 0).
Proof.
  intros Hne Hle. rewrite FixLength_BuildIndexKey_Ok by done. simpl.
  apply FixLength_StripRowID_Ok.
  pose proof (len_nonneg rowID).
  rewrite len_app. unfold len at 2. rewrite length_replicate. lia.
Qed.

(** C1 (as amended). A non-empty row identifier comes back from
    [StripRowID (BuildIndexKey searchableKey rowID)]: with the dynamic codec
    when the searchable key has fewer than 255 bytes, with the fixed codec
    when the row identifier has exactly the declared length. *)
Theorem index_key_roundtrip (searchableKey rowID : list byte) :
  rowID <> [] ->
  (len searchableKey < 255 ->
     BuildIndexKey Max255DynamicLengthIndexKeys searchableKey rowID
       ≫= StripRowID Max255DynamicLengthIndexKeys = Ok rowID)
  /\ (forall c : FixLengthIndexKeyCodec,
        len rowID = rowIDLength c ->
        BuildIndexKey c searchableKey rowID ≫= StripRowID c = Ok rowID).
Proof.
  intros Hne. split.
  - intros Hlt. simpl.
    rewrite Max255_BuildIndexKey_Ok by (done || lia). simpl.
    by apply Max255_StripRowID_Ok.
  - intros c Hlen. simpl.
    rewrite FixLength_roundtrip_padded by (done || lia).
    replace (rowIDLength c - len rowID) with 0 by lia.
    simpl. by rewrite app_nil_r.
Qed.

Lemma index_key_roundtrip_witness :
  BuildIndexKey Max255DynamicLengthIndexKeys [97; 98; 99] [49; 50; 51; 52]
    ≫= StripRowID Max255DynamicLengthIndexKeys = Ok [49; 50; 51; 52]
  /\ BuildIndexKey (FixLengthIndexKeys 4) [97; 98; 99] [49; 50; 51; 52]
       ≫= StripRowID (FixLengthIndexKeys 4) = Ok [49; 50; 51; 52].
Proof.
  destruct (index_key_roundtrip [97; 98; 99] [49; 50; 51; 52]) as [Hd Hf];
    [done |].
  split; [apply Hd; reflexivity | apply (Hf (FixLengthIndexKeys 4)); reflexivity].
Defined.

(** C1 (as stated) fails.  With the fixed codec of length 2, the one-byte row
    identifier [1] is within the declared length but comes back padded; with
    the dynamic codec, a searchable key of 255 bytes is within its bound but
    the whole index key comes back. *)
Lemma index_key_roundtrip_counterexample :
  (len [1] <= rowIDLength (FixLengthIndexKeys 2)
   /\ BuildIndexKey (FixLengthIndexKeys 2) [7] [1]
        ≫= StripRowID (FixLengthIndexKeys 2) = Ok [1; 0]
   /\ Ok [1; 0] <> Ok [1])
  /\ (len (replicate 255 7) <= 255
      /\ BuildIndexKey Max255DynamicLengthIndexKeys (replicate 255 7) [1]
           ≫= StripRowID Max255DynamicLengthIndexKeys
         = Ok (255 :: replicate 255 7 ++ [1])
      /\ Ok (255 :: replicate 255 7 ++ [1]) <> Ok [1]).
Proof.
  split; (split; [by vm_compute |]); (split; [by vm_compute | done]).
Qed.

(** ** Primary keys *)

Lemma NullTerminatedBytes_Ok (s : string) :
  NullTerminatedBytes s = Ok (string_bytes s ++ [0]).
Proof.
  unfold NullTerminatedBytes.
  pose proof (len_nonneg (string_bytes s)) as Hs.
  rewrite make_Ok by lia. simpl.
  rewrite copy_fits by (rewrite length_replicate; unfold len; lia).
  replace (Z.to_nat (len (string_bytes s) + 1))
    with (S (length (string_bytes s))) by (unfold len; lia).
  rewrite drop_replicate.
  by replace (S (length (string_bytes s)) - length (string_bytes s))%nat
    with 1%nat by lia.
Qed.

Lemma primaryKeyFieldBytes_ok (f : value) :
  field_ok f -> primaryKeyFieldBytes f = Ok (fieldEncoding f).
Proof.
  destruct f; simpl; try done.
  - apply AddLengthPrefix_Ok.
  - intros _. apply NullTerminatedBytes_Ok.
Qed.

Lemma fieldsBytes_ok (fields : list value) :
  Forall field_ok fields -> fieldsBytes fields = Ok (fieldEncoding <$> fields).
Proof.
  induction 1 as [| f fields Hf _ IH]; [done |].
  simpl. rewrite primaryKeyFieldBytes_ok by done. simpl. by rewrite IH.
Qed.

Lemma foldl_append (bss : list (list byte)) (acc : list byte) :
  foldl (fun primaryKey bs => primaryKey ++ bs) acc bss = acc ++ concat bss.
Proof.
  revert acc. induction bss as [| bs bss IH]; intros acc; simpl.
  - by rewrite app_nil_r.
  - by rewrite IH, app_assoc.
Qed.

(** On accepted parts the key is the concatenation of the encodings of the
    parts, in the order of the parts. *)
Lemma buildPrimaryKey_ok (fields : list value) :
  Forall field_ok fields ->
  buildPrimaryKey fields = Ok (concat (fieldEncoding <$> fields)).
Proof.
  intros Hok. unfold buildPrimaryKey. rewrite fieldsBytes_ok by done.
  simpl. by rewrite foldl_append.
Qed.

(** A part of a type outside [[]byte], [string], [uint64] makes the whole
    call panic, wherever it stands among accepted parts. *)
Lemma buildPrimaryKey_other_type (pre post : list value) (f : value) :
  Forall field_ok pre ->
  type_name f <> "[]uint8" -> type_name f <> "string" ->
  type_name f <> "uint64" ->
  buildPrimaryKey (pre ++ f :: post) =
    Panic ("Type " +:+ type_name f +:+ " not allowed as primary key field").
Proof.
  intros Hpre Hb Hs Hu. unfold buildPrimaryKey.
  induction Hpre as [| g pre Hg _ IH]; simpl.
  - by destruct f.
  - rewrite primaryKeyFieldBytes_ok by done. simpl.
    destruct (fieldsBytes (pre ++ f :: post)); simpl in *; congruence.
Qed.

(** C2. A [uint32] part, which the documentation of [PrimaryKeyFields]
    promises to encode on 4 bytes, makes [buildPrimaryKey] panic. *)
Theorem buildPrimaryKey_uint32_panics :
  buildPrimaryKey [VUint32 7] =
    Panic "Type uint32 not allowed as primary key field".
Proof. reflexivity. Qed.

(** ** Big-endian integers *)

Lemma EncodeSequence_length (v : Z) : length (EncodeSequence v) = 8%nat.
Proof. reflexivity. Qed.

Lemma EncodeSequence_bytes (v : Z) : Forall is_byte (EncodeSequence v).
Proof.
  unfold EncodeSequence. apply Forall_fmap, Forall_forall. intros i _.
  simpl. unfold is_byte, uint8. apply Z.mod_pos_bound. lia.
Qed.

Lemma EncodeSequence_value (v : Z) :
  0 <= v < 2 ^ 64 -> bigEndianValue (EncodeSequence v) = v.
Proof.
  intros Hv. unfold EncodeSequence, uint64, uint8.
  rewrite (Z.mod_small v) by done.
  cbn [fmap list_fmap bigEndianValue]. unfold len. cbn [length].
  rewrite !Z.shiftr_div_pow2 by lia.
  repeat match goal with
         | |- context [Z.of_nat ?n] => eval_closed (Z.of_nat n)
         | |- context [8 * ?n] => eval_closed (8 * n)
         end.
  repeat match goal with
         | H : context [?a ^ ?b] |- _ => eval_closed (a ^ b)
         | |- context [?a ^ ?b] => eval_closed (a ^ b)
         end.
  Z.div_mod_to_equations; lia.
Qed.

Lemma EncodeSequence_inj (a b : Z) :
  0 <= a < 2 ^ 64 -> 0 <= b < 2 ^ 64 ->
  EncodeSequence a = EncodeSequence b -> a = b.
Proof.
  intros Ha Hb Heq.
  rewrite <- (EncodeSequence_value a), <- (EncodeSequence_value b) by done.
  by rewrite Heq.
Qed.

Lemma bigEndianValue_bound (bs : list byte) :
  Forall is_byte bs -> 0 <= bigEndianValue bs < 256 ^ len bs.
Proof.
  induction 1 as [| b bs Hb _ IH]; [by vm_compute |].
  cbn [bigEndianValue]. unfold is_byte in Hb.
  replace (len (b :: bs)) with (len bs + 1) by (unfold len; cbn [length]; lia).
  rewrite Z.pow_add_r by (pose proof (len_nonneg bs); lia).
  nia.
Qed.

(** ** The order of keys *)

Lemma bytes_Compare_refl (a : list byte) : bytes_Compare a a = Eq.
Proof. induction a as [| x a IH]; simpl; [done |]. by rewrite Z.compare_refl. Qed.

Lemma bytes_Compare_app_prefix (p a b : list byte) :
  bytes_Compare (p ++ a) (p ++ b) = bytes_Compare a b.
Proof. induction p as [| x p IH]; simpl; [done |]. by rewrite Z.compare_refl. Qed.

Lemma bytes_Compare_app_suffix (a b s : list byte) :
  length a = length b ->
  bytes_Compare (a ++ s) (b ++ s) = bytes_Compare a b.
Proof.
  revert b. induction a as [| x a IH]; intros [| y b] Hlen; try done.
  - simpl. apply bytes_Compare_refl.
  - simpl in *. destruct (x ?= y); [apply IH; lia | done | done].
Qed.

Lemma bytes_Compare_bigEndian (a b : list byte) :
  Forall is_byte a -> Forall is_byte b -> length a = length b ->
  bytes_Compare a b = (bigEndianValue a ?= bigEndianValue b).
Proof.
  intros Ha. revert b.
  induction Ha as [| x a Hx Ha IH]; intros b Hb Hlen;
    destruct Hb as [| y b Hy Hb]; try done.
  cbn [bytes_Compare bigEndianValue].
  assert (len a = len b) as Hl by (unfold len; simpl in Hlen; lia).
  pose proof (bigEndianValue_bound a Ha) as Hva.
  pose proof (bigEndianValue_bound b Hb) as Hvb.
  rewrite Hl in *. unfold is_byte in *.
  destruct (Z.compare_spec x y) as [-> | Hlt | Hgt].
  - rewrite IH by (done || (simpl in Hlen; lia)).
    by rewrite Z.add_compare_mono_l.
  - symmetry. apply Z.compare_lt_iff. nia.
  - symmetry. apply Z.compare_gt_iff. nia.
Qed.

Lemma EncodeSequence_Compare (a b : Z) :
  0 <= a < 2 ^ 64 -> 0 <= b < 2 ^ 64 ->
  bytes_Compare (EncodeSequence a) (EncodeSequence b) = (a ?= b).
Proof.
  intros Ha Hb.
  rewrite bytes_Compare_bigEndian
    by (apply EncodeSequence_bytes || apply EncodeSequence_length).
  by rewrite !EncodeSequence_value.
Qed.

(** ** Injectivity of the primary-key encoding *)

Lemma string_bytes_inj (s t : string) : string_bytes s = string_bytes t -> s = t.
Proof.
  unfold string_bytes. intros Heq.
  rewrite <- (String.string_of_list_ascii_of_string s),
          <- (String.string_of_list_ascii_of_string t).
  f_equal. revert Heq.
  generalize (String.list_ascii_of_string s) (String.list_ascii_of_string t).
  induction l as [| c l IH]; intros [| d l'] Heq; simpl in Heq; try done.
  injection Heq as Hc Hl. f_equal; [| by apply IH].
  rewrite <- (Ascii.ascii_N_embedding c), <- (Ascii.ascii_N_embedding d).
  f_equal. lia.
Qed.

Lemma nul_terminated_prefix_free (x y r1 r2 : list byte) :
  0 ∉ x -> 0 ∉ y -> (x ++ [0]) ++ r1 = (y ++ [0]) ++ r2 -> x = y /\ r1 = r2.
Proof.
  revert y. induction x as [| a x IH]; intros [| b y] Hx Hy Heq;
    simpl in Heq.
  - by injection Heq.
  - injection Heq as <- _. by apply not_elem_of_cons in Hy as [? _].
  - injection Heq as -> _. by apply not_elem_of_cons in Hx as [? _].
  - injection Heq as -> Heq.
    apply not_elem_of_cons in Hx as [_ Hx].
    apply not_elem_of_cons in Hy as [_ Hy].
    destruct (IH y Hx Hy Heq) as [-> ->]. done.
Qed.

(** No encoding of a part is a proper prefix of the encoding of another part
    of the same type: the boundary between two parts can be found again. *)
Lemma fieldEncoding_prefix_free (f g : value) (r1 r2 : list byte) :
  field_ok f -> field_ok g -> same_kind f g ->
  fieldEncoding f ++ r1 = fieldEncoding g ++ r2 -> f = g /\ r1 = r2.
Proof.
  unfold same_kind.
  destruct f as [v | v | v | | | |], g as [w | w | w | | | |];
    cbn [fieldEncoding field_ok type_name]; try done; intros Hf Hg _ Heq.
  - simpl in Heq. injection Heq as Hlen Heq.
    apply app_inj_1 in Heq as [-> ->]; [done |]. unfold len in Hlen. lia.
  - apply nul_terminated_prefix_free in Heq as [Heq ->]; [| done | done].
    by rewrite (string_bytes_inj _ _ Heq).
  - apply app_inj_1 in Heq as [Heq ->];
      [| by rewrite !EncodeSequence_length].
    by rewrite (EncodeSequence_inj _ _ Hf Hg Heq).
Qed.

Lemma concat_fieldEncoding_inj (fs gs : list value) :
  Forall field_ok fs -> Forall field_ok gs -> Forall2 same_kind fs gs ->
  concat (fieldEncoding <$> fs) = concat (fieldEncoding <$> gs) -> fs = gs.
Proof.
  intros Hfs Hgs Hkind. revert Hfs Hgs.
  induction Hkind as [| f g fs gs Hk _ IH]; intros Hfs Hgs Heq; [done |].
  apply Forall_cons in Hfs as [Hf Hfs]. apply Forall_cons in Hgs as [Hg Hgs].
  simpl in Heq.
  apply fieldEncoding_prefix_free in Heq as [-> Heq]; [| done | done | done].
  f_equal. by apply IH.
Qed.

(** C4 (as amended). Two distinct lists of accepted primary-key parts that
    have the same types position by position are encoded to distinct keys. *)
Theorem buildPrimaryKey_injective (fs gs : list value) :
  Forall field_ok fs -> Forall field_ok gs -> Forall2 same_kind fs gs ->
  fs <> gs ->
  exists k1 k2 : list byte,
    buildPrimaryKey fs = Ok k1 /\ buildPrimaryKey gs = Ok k2 /\ k1 <> k2.
Proof.
  intros Hfs Hgs Hkind Hne. eexists _, _.
  split; [by apply buildPrimaryKey_ok |].
  split; [by apply buildPrimaryKey_ok |].
  intros Heq. apply Hne. by apply concat_fieldEncoding_inj.
Qed.

Lemma buildPrimaryKey_injective_witness :
  exists k1 k2 : list byte,
    buildPrimaryKey [VString "C01"; VUint64 1; VBytes [1]] = Ok k1
    /\ buildPrimaryKey [VString "C01"; VUint64 1; VBytes [2]] = Ok k2
    /\ k1 <> k2.
Proof.
  apply buildPrimaryKey_injective.
  - repeat (constructor; [simpl; unfold len; simpl; (lia || compute_done) |]).
    constructor.
  - repeat (constructor; [simpl; unfold len; simpl; (lia || compute_done) |]).
    constructor.
  - repeat (constructor; [reflexivity |]). constructor.
  - intros Heq. discriminate Heq.
Defined.

(** C4 (as stated) fails: the empty byte string and the empty string are two
    distinct accepted parts, and both are encoded to the single byte 0. *)
Lemma buildPrimaryKey_injective_counterexample :
  Forall field_ok [VBytes []] /\ Forall field_ok [VString ""]
  /\ [VBytes []] <> [VString ""]
  /\ buildPrimaryKey [VBytes []] = Ok [0]
  /\ buildPrimaryKey [VString ""] = Ok [0].
Proof.
  split; [constructor; [by vm_compute | constructor] |].
  split; [constructor; [simpl; compute_done | constructor] |].
  split; [done |]. split; reflexivity.
Qed.

(** ** Storage prefixes of the group module *)

(** C9. The storage prefixes declared for the tables, sequences and indexes
    of the group module are pairwise distinct. *)
Theorem group_prefixes_distinct : NoDup GroupPrefixes.all.
Proof. compute_done. Qed.

(** ** [Contains] *)

Lemma sameTypeCheck_rejects : rejects_other_types sameTypeCheck.
Proof.
  intros model obj Hne. unfold sameTypeCheck.
  destruct (decide (model = TypeOf obj)); [by subst | done].
Qed.

(** C10. [Contains] answers [false], with no panic, for an object whose type
    is not the model type of the table, whatever the store holds and
    whatever the primary-key parts of the object are. *)
Theorem Contains_wrong_type
    (assertCorrectType : string -> PrimaryKeyed -> option error)
    (table_Has : table -> KVStore -> list byte -> bool)
    (a : PrimaryKeyTable) (ctx : KVStore) (obj : PrimaryKeyed) :
  rejects_other_types assertCorrectType ->
  TypeOf obj <> model (ptable a) ->
  Contains assertCorrectType table_Has a ctx obj = Ok false.
Proof.
  intros Hcheck Hne. unfold Contains.
  specialize (Hcheck (model (ptable a)) obj Hne).
  by destruct (assertCorrectType (model (ptable a)) obj).
Qed.

(** A row is stored under the very key of the object, and the answer is
    still [false]. *)
Lemma Contains_wrong_type_witness :
  let a := {| ptable := {| prefix := 0x10; model := "GroupMember" |} |} in
  let obj := {| TypeOf := "Vote"; PrimaryKeyFields := [VUint64 1] |} in
  let ctx : KVStore := {[ 0x10 :: EncodeSequence 1 := [42] ]} in
  PrimaryKey obj = Ok (EncodeSequence 1)
  /\ Has storeHas a ctx (EncodeSequence 1) = true
  /\ Contains sameTypeCheck storeHas a ctx obj = Ok false.
Proof.
  intros a obj ctx. split; [reflexivity |]. split; [by vm_compute |].
  apply (Contains_wrong_type sameTypeCheck storeHas a ctx obj).
  - apply sameTypeCheck_rejects.
  - simpl. discriminate.
Defined.

(** The panic the early answer avoids: the same call on an object whose
    primary-key parts cannot be encoded. *)
Lemma Contains_wrong_type_no_panic :
  let a := {| ptable := {| prefix := 0x10; model := "GroupMember" |} |} in
  let obj := {| TypeOf := "Vote"; PrimaryKeyFields := [VBool true] |} in
  (exists msg, PrimaryKey obj = Panic msg)
  /\ Contains sameTypeCheck storeHas a ∅ obj = Ok false.
Proof. split; [by eexists | reflexivity]. Qed.

(** With the right type the answer is the one of [Has] on the primary key. *)
Lemma Contains_right_type
    (assertCorrectType : string -> PrimaryKeyed -> option error)
    (table_Has : table -> KVStore -> list byte -> bool)
    (a : PrimaryKeyTable) (ctx : KVStore) (obj : PrimaryKeyed)
    (rowID : list byte) :
  assertCorrectType (model (ptable a)) obj = None ->
  PrimaryKey obj = Ok rowID ->
  Contains assertCorrectType table_Has a ctx obj
    = Ok (Has table_Has a ctx rowID).
Proof. intros Hty Hpk. unfold Contains, Has. by rewrite Hty, Hpk. Qed.

(** ** Sequence *)





(** Three calls on a fresh store, then two more on the store they leave; a
    sequence under another prefix is not touched. *)
Lemma Sequence_nexts_example :
  let s := {| seqPrefix := GroupPrefixes.GroupTableSeqPrefix |} in
  let s' := {| seqPrefix := GroupPrefixes.ProposalTableSeqPrefix |} in
  (Sequence_nexts 3 s ∅).1 = [1; 2; 3]
  /\ (Sequence_nexts 2 s (Sequence_nexts 3 s ∅).2).1 = [4; 5]
  /\ Sequence_cur s' (Sequence_nexts 3 s ∅).2 = 0.
Proof. by vm_compute. Qed.

(** ** Decimals *)

Section Decimals.
Import math.

Lemma pow10_pos (n : nat) : 0 < 10 ^ Z.of_nat n.
Proof. apply Z.pow_pos_nonneg; lia. Qed.

(** A decimal denotes the same number once written with more fractional
    digits. *)
Lemma DecQ_rescale (d : Dec) (p : nat) :
  (places d <= p)%nat ->
  (DecQ d == rescale d p # Z.to_pos (10 ^ Z.of_nat p))%Q.
Proof.
  intros Hle. unfold DecQ, rescale, Qeq. simpl.
  rewrite !Z2Pos.id by apply pow10_pos.
  replace (Z.of_nat p) with (Z.of_nat (p - places d) + Z.of_nat (places d))
    by lia.
  rewrite Z.pow_add_r by lia. ring.
Qed.

Lemma Qlt_same_den (x y : Z) (D : positive) : (x # D < y # D)%Q <-> x < y.
Proof. unfold Qlt. simpl. symmetry. apply Z.mul_lt_mono_pos_r. lia. Qed.

Lemma Qle_same_den (x y : Z) (D : positive) : (x # D <= y # D)%Q <-> x <= y.
Proof. unfold Qle. simpl. symmetry. apply Z.mul_le_mono_pos_r. lia. Qed.

Lemma Qminus_same_den (x y : Z) (D : positive) :
  ((x # D) - (y # D) == (x - y) # D)%Q.
Proof. unfold Qeq. simpl. rewrite Pos2Z.inj_mul. ring. Qed.

Lemma Qplus_same_den (x y : Z) (D : positive) :
  ((x # D) + (y # D) == (x + y) # D)%Q.
Proof. unfold Qeq. simpl. rewrite Pos2Z.inj_mul. ring. Qed.

(** [Cmp] is the comparison of the numbers denoted. *)
Lemma Cmp_lt_iff (x y : Dec) : Cmp x y < 0 <-> (DecQ x < DecQ y)%Q.
Proof.
  unfold Cmp.
  rewrite (DecQ_rescale x (max (places x) (places y))) by lia.
  rewrite (DecQ_rescale y (max (places x) (places y))) by lia.
  rewrite Qlt_same_den.
  destruct (Z.compare_spec (rescale x (max (places x) (places y)))
              (rescale y (max (places x) (places y)))); lia.
Qed.

Lemma IsEqual_iff (x y : Dec) : IsEqual x y = true <-> (DecQ x == DecQ y)%Q.
Proof.
  unfold IsEqual, Cmp.
  rewrite (DecQ_rescale x (max (places x) (places y))) by lia.
  rewrite (DecQ_rescale y (max (places x) (places y))) by lia.
  unfold Qeq. simpl.
  destruct (Z.compare_spec (rescale x (max (places x) (places y)))
              (rescale y (max (places x) (places y)))) as [Heq | Hlt | Hgt];
    split; intros H; try done; try (by rewrite Heq).
  - apply Z.mul_cancel_r in H; lia.
  - apply Z.mul_cancel_r in H; lia.
Qed.

(** [Sub] and [Add] are exact. *)
Lemma Sub_exact (x y : Dec) :
  exists z : Dec, Sub x y = inl z /\ (DecQ z == DecQ x - DecQ y)%Q.
Proof.
  eexists. split; [reflexivity |].
  rewrite (DecQ_rescale x (max (places x) (places y))) by lia.
  rewrite (DecQ_rescale y (max (places x) (places y))) by lia.
  by rewrite Qminus_same_den.
Qed.

Lemma Add_exact (x y : Dec) :
  exists z : Dec, Add x y = inl z /\ (DecQ z == DecQ x + DecQ y)%Q.
Proof.
  eexists. split; [reflexivity |].
  rewrite (DecQ_rescale x (max (places x) (places y))) by lia.
  rewrite (DecQ_rescale y (max (places x) (places y))) by lia.
  by rewrite Qplus_same_den.
Qed.

(** C3. On non-negative decimals [SafeSubBalance a b] is the exact
    difference when [a >= b] and the insufficient-funds error, which is not
    the generic arithmetic error, when [a < b]; so it is for 5 and 2. *)
Theorem SafeSubBalance_spec (a b : Dec) :
  (0 <= DecQ a)%Q -> (0 <= DecQ b)%Q ->
  ((DecQ b <= DecQ a)%Q ->
     exists z : Dec,
       SafeSubBalance a b = inl z /\ (DecQ z == DecQ a - DecQ b)%Q)
  /\ ((DecQ a < DecQ b)%Q -> SafeSubBalance a b = inr ErrInsufficientFunds)
  /\ ErrInsufficientFunds <> ErrDecimalArithmetic
  /\ (exists five two three : Dec,
        NewDecFromString "5" = inl five
        /\ NewDecFromString "2" = inl two
        /\ NewDecFromString "3" = inl three
        /\ SafeSubBalance five two = inl three
        /\ SafeSubBalance two five = inr ErrInsufficientFunds).
Proof.
  intros _ _. split; [| split; [| split]].
  - intros Hle. unfold SafeSubBalance.
    destruct (Z.ltb_spec (Cmp a b) 0) as [Hlt | _].
    + apply Cmp_lt_iff in Hlt. by apply Qlt_not_le in Hlt.
    + apply Sub_exact.
  - intros Hlt. unfold SafeSubBalance.
    apply Cmp_lt_iff in Hlt.
    destruct (Z.ltb_spec (Cmp a b) 0); [done | lia].
  - done.
  - by eexists _, _, _.
Qed.

Lemma SafeSubBalance_spec_witness :
  let a := {| unscaled := 349; places := 2 |} in
  let b := {| unscaled := 2; places := 0 |} in
  (exists z : Dec,
     SafeSubBalance a b = inl z /\ (DecQ z == DecQ a - DecQ b)%Q)
  /\ SafeSubBalance b a = inr ErrInsufficientFunds.
Proof.
  intros a b. split.
  - apply (SafeSubBalance_spec a b); by vm_compute.
  - apply (SafeSubBalance_spec b a); by vm_compute.
Defined.

(** The same scenario as the test writes it, from [NewDecFromInt64]. *)
Lemma SafeSubBalance_test :
  let two := NewDecFromInt64 2 in
  let three := NewDecFromInt64 3 in
  let five := NewDecFromInt64 5 in
  (exists res, SafeSubBalance five two = inl res /\ IsEqual res three = true)
  /\ (exists err, SafeSubBalance two five = inr err).
Proof. split; eexists; [split |]; reflexivity. Qed.

(** C7. ["1.15"] parses to 115 hundredths and ["2.34"] to 234 hundredths;
    their sum is 349 hundredths, which is equal in value to the decimal
    parsed from ["3.49"], and to the one parsed from ["3.490"] although the
    text differs, but not to 3.5.  Every digit and the sign count in a
    parse.  In general the sum is exact and [IsEqual] is equality of the
    values. *)
Theorem Add_scenario :
  NewDecFromString "1.15" = inl {| unscaled := 115; places := 2 |}
  /\ NewDecFromString "2.34" = inl {| unscaled := 234; places := 2 |}
  /\ NewDecFromString "3.49" = inl {| unscaled := 349; places := 2 |}
  /\ NewDecFromString "3.490" = inl {| unscaled := 3490; places := 3 |}
  /\ NewDecFromString "-60.78" = inl {| unscaled := -6078; places := 2 |}
  /\ (DecQ {| unscaled := 115; places := 2 |} == 115 # 100)%Q
  /\ (DecQ {| unscaled := 234; places := 2 |} == 234 # 100)%Q
  /\ (DecQ {| unscaled := 349; places := 2 |} == 349 # 100)%Q
  /\ Add {| unscaled := 115; places := 2 |} {| unscaled := 234; places := 2 |}
     = inl {| unscaled := 349; places := 2 |}
  /\ IsEqual {| unscaled := 349; places := 2 |}
       {| unscaled := 349; places := 2 |} = true
  /\ IsEqual {| unscaled := 349; places := 2 |}
       {| unscaled := 3490; places := 3 |} = true
  /\ IsEqual {| unscaled := 349; places := 2 |}
       {| unscaled := 35; places := 1 |} = false
  /\ (forall x y : Dec,
        exists z : Dec, Add x y = inl z /\ (DecQ z == DecQ x + DecQ y)%Q)
  /\ (forall x y : Dec, IsEqual x y = true <-> (DecQ x == DecQ y)%Q).
Proof.
  do 12 (split; [by vm_compute |]).
  split; [apply Add_exact | apply IsEqual_iff].
Qed.

(** Equality is on the number, not on the text. *)
Lemma IsEqual_not_textual :
  exists a b : Dec,
    NewDecFromString "1.0" = inl a /\ NewDecFromString "1.00" = inl b
    /\ a <> b /\ IsEqual a b = true.
Proof. eexists _, _. repeat (split; [reflexivity |]). done. Qed.

End Decimals.

(** * Further properties of the code *)

(** ** Index key codecs: when a key is built, and what it is *)

Lemma Max255_BuildIndexKey_inv (searchableKey rowID k : list byte) :
  Max255DynamicLength.BuildIndexKey searchableKey rowID = Ok k ->
  rowID <> [] /\ len searchableKey <= 255
  /\ k = len searchableKey :: searchableKey ++ rowID.
Proof.
  intros Hk.
  destruct (decide (rowID = [])) as [-> | Hne]; [done |].
  destruct (Z.le_gt_cases (len searchableKey) 255) as [Hle | Hgt].
  - rewrite Max255_BuildIndexKey_Ok in Hk by done. by injection Hk as <-.
  - exfalso. revert Hk. unfold Max255DynamicLength.BuildIndexKey.
    destruct (len rowID =? 0); [done |].
    destruct (make (1 + len searchableKey + len rowID)); [| done]. simpl.
    destruct (AddLengthPrefix_Panic searchableKey) as [msg ->]; [lia | done].
Qed.

(** X1. The dynamic codec builds a key exactly when the row identifier is
    not empty and the searchable key has at most 255 bytes; the key is then
    the length byte, the searchable key and the row identifier. *)
Theorem Max255_BuildIndexKey_char (searchableKey rowID : list byte) :
  ((exists k, BuildIndexKey Max255DynamicLengthIndexKeys searchableKey rowID
                = Ok k)
   <-> rowID <> [] /\ len searchableKey <= 255)
  /\ (forall k,
        BuildIndexKey Max255DynamicLengthIndexKeys searchableKey rowID = Ok k ->
        k = len searchableKey :: searchableKey ++ rowID
        /\ len k = 1 + len searchableKey + len rowID)
  /\ (rowID = [] ->
      BuildIndexKey Max255DynamicLengthIndexKeys searchableKey rowID
        = Panic "Empty RowID").
Proof.
  simpl. split; [split |split].
  - intros [k Hk]. by apply Max255_BuildIndexKey_inv in Hk as (? & ? & _).
  - intros [Hne Hle]. eexists. by apply Max255_BuildIndexKey_Ok.
  - intros k Hk. apply Max255_BuildIndexKey_inv in Hk as (_ & _ & ->).
    split; [done |]. unfold len. cbn [length]. rewrite length_app. lia.
  - by intros ->.
Qed.

Lemma FixLength_BuildIndexKey_inv (c : FixLengthIndexKeyCodec)
    (searchableKey rowID k : list byte) :
  FixLength.BuildIndexKey c searchableKey rowID = Ok k ->
  rowID <> [] /\ len rowID <= rowIDLength c
  /\ k = searchableKey ++ rowID
           ++ replicate (Z.to_nat (rowIDLength c - len rowID)) 0.
Proof.
  intros Hk.
  destruct (decide (rowID = [])) as [-> | Hne]; [done |].
  destruct (Z.le_gt_cases (len rowID) (rowIDLength c)) as [Hle | Hgt].
  - rewrite FixLength_BuildIndexKey_Ok in Hk by done. by injection Hk as <-.
  - exfalso. revert Hk. unfold FixLength.BuildIndexKey.
    destruct (len rowID =? 0); [done |].
    destruct (Z.ltb_spec (rowIDLength c) (len rowID)); [done | lia].
Qed.

(** X2. As long as the length of the key is one an [int] holds on every
    platform, the fixed-length codec builds a key exactly when the row
    identifier is not empty and not longer than the declared length; the key
    is then the searchable key, the row identifier and zero bytes up to the
    declared length, so that every key of a searchable key has the same
    length. *)
Theorem FixLength_BuildIndexKey_char (c : FixLengthIndexKeyCodec)
    (searchableKey rowID : list byte) :
  len searchableKey + rowIDLength c < 2 ^ 31 ->
  ((exists k, BuildIndexKey c searchableKey rowID = Ok k)
   <-> rowID <> [] /\ len rowID <= rowIDLength c)
  /\ (forall k,
        BuildIndexKey c searchableKey rowID = Ok k ->
        k = searchableKey ++ rowID
              ++ replicate (Z.to_nat (rowIDLength c - len rowID)) 0
        /\ len k = len searchableKey + rowIDLength c)
  /\ (rowID = [] -> BuildIndexKey c searchableKey rowID = Panic "Empty RowID")
  /\ (rowID <> [] -> rowIDLength c < len rowID ->
      BuildIndexKey c searchableKey rowID = Panic "RowID exceeds max size").
Proof.
  intros _. simpl. split; [split | split; [| split]].
  - intros [k Hk]. by apply FixLength_BuildIndexKey_inv in Hk as (? & ? & _).
  - intros [Hne Hle]. eexists. by apply FixLength_BuildIndexKey_Ok.
  - intros k Hk. apply FixLength_BuildIndexKey_inv in Hk as (_ & Hle & ->).
    split; [done |]. pose proof (len_nonneg rowID).
    rewrite !len_app. unfold len at 3. rewrite length_replicate. lia.
  - by intros ->.
  - intros Hne Hgt. unfold FixLength.BuildIndexKey.
    destruct (Z.eqb_spec (len rowID) 0) as [H0 | _].
    + by apply len_nil_iff in H0.
    + by destruct (Z.ltb_spec (rowIDLength c) (len rowID)); [| lia].
Qed.

Lemma FixLength_BuildIndexKey_char_witness :
  BuildIndexKey (FixLengthIndexKeys 8) [97] [1; 2; 3]
    = Ok [97; 1; 2; 3; 0; 0; 0; 0; 0]
  /\ BuildIndexKey (FixLengthIndexKeys 2) [97] [1; 2; 3]
       = Panic "RowID exceeds max size".
Proof.
  destruct (FixLength_BuildIndexKey_char (FixLengthIndexKeys 8) [97] [1; 2; 3])
    as ([_ Hok] & Hkey & _); [by vm_compute |].
  destruct (FixLength_BuildIndexKey_char (FixLengthIndexKeys 2) [97] [1; 2; 3])
    as (_ & _ & _ & Hpanic); [by vm_compute |].
  split; [| apply Hpanic; by vm_compute].
  destruct Hok as [k Hk]; [by vm_compute |].
  rewrite Hk. f_equal. by destruct (Hkey k Hk) as [-> _].
Defined.

(** ** Index key codecs: stripping *)

(** X3. On a key whose first byte [b] is below 255, the dynamic codec drops
    that byte and the [b] bytes after it; when fewer than [b] bytes follow,
    it panics.  An empty key panics as well. *)
Theorem Max255_StripRowID_char (b : Z) (rest : list byte) :
  0 <= b < 255 ->
  (b <= len rest ->
     StripRowID Max255DynamicLengthIndexKeys (b :: rest)
       = Ok (drop (Z.to_nat b) rest))
  /\ (len rest < b ->
        StripRowID Max255DynamicLengthIndexKeys (b :: rest)
          = Panic "slice bounds out of range")
  /\ StripRowID Max255DynamicLengthIndexKeys [] = Panic "index out of range".
Proof.
  intros Hb. simpl. unfold Max255DynamicLength.StripRowID, index. simpl.
  unfold uint8. rewrite Z.mod_small by lia.
  split; [| split; [| done]].
  - intros Hle. rewrite slice_from_Ok.
    + f_equal. by replace (Z.to_nat (1 + b)) with (S (Z.to_nat b)) by lia.
    + unfold len in *. cbn [length]. lia.
  - intros Hgt. unfold slice_from.
    destruct (Z.ltb_spec (1 + b) 0); [lia |].
    destruct (Z.ltb_spec (len (b :: rest)) (1 + b)) as [_ | Hge]; [done |].
    unfold len in *. cbn [length] in Hge. lia.
Qed.

Lemma Max255_StripRowID_char_witness :
  StripRowID Max255DynamicLengthIndexKeys [2; 97; 98; 49; 50] = Ok [49; 50]
  /\ StripRowID Max255DynamicLengthIndexKeys [3; 97; 98]
       = Panic "slice bounds out of range".
Proof.
  destruct (Max255_StripRowID_char 2 [97; 98; 49; 50]) as (Hok & _ & _);
    [lia |].
  destruct (Max255_StripRowID_char 3 [97; 98]) as (_ & Hpanic & _); [lia |].
  split; [apply Hok | apply Hpanic]; by vm_compute.
Defined.

(** X4. The fixed-length codec strips to the last [rowIDLength] bytes of the
    key, whatever the key holds; a key shorter than that, or a negative
    declared length, makes it panic. *)
Theorem FixLength_StripRowID_char (c : FixLengthIndexKeyCodec)
    (persistentIndexKey : list byte) :
  (0 <= rowIDLength c <= len persistentIndexKey ->
     exists searchableKey rowID : list byte,
       persistentIndexKey = searchableKey ++ rowID
       /\ len rowID = rowIDLength c
       /\ StripRowID c persistentIndexKey = Ok rowID)
  /\ (len persistentIndexKey < rowIDLength c \/ rowIDLength c < 0 ->
        StripRowID c persistentIndexKey = Panic "slice bounds out of range").
Proof.
  simpl. split.
  - intros [Hlo Hhi].
    set (n := Z.to_nat (len persistentIndexKey - rowIDLength c)).
    exists (take n persistentIndexKey), (drop n persistentIndexKey).
    split; [by rewrite take_drop |]. split.
    + unfold len in *. rewrite length_drop. lia.
    + unfold FixLength.StripRowID. by rewrite slice_from_Ok by lia.
  - intros Hbad. unfold FixLength.StripRowID, slice_from.
    destruct (Z.ltb_spec (len persistentIndexKey - rowIDLength c) 0);
      [done |].
    destruct (Z.ltb_spec (len persistentIndexKey)
                (len persistentIndexKey - rowIDLength c)); [done | lia].
Qed.

(** X5. As long as the length of the key is one an [int] holds on every
    platform, whatever the fixed-length codec accepts comes back as exactly
    [rowIDLength] bytes: the row identifier followed by zero bytes. *)
Theorem FixLength_roundtrip_zero_padded (c : FixLengthIndexKeyCodec)
    (searchableKey rowID : list byte) :
  len searchableKey + rowIDLength c < 2 ^ 31 ->
  rowID <> [] -> len rowID <= rowIDLength c ->
  exists stripped : list byte,
    BuildIndexKey c searchableKey rowID ≫= StripRowID c = Ok stripped
    /\ len stripped = rowIDLength c
    /\ take (length rowID) stripped = rowID
    /\ Forall (fun x => x = 0) (drop (length rowID) stripped).
Proof.
  intros _ Hne Hle. eexists. split; [by apply FixLength_roundtrip_padded |].
  pose proof (len_nonneg rowID). split; [| split].
  - rewrite len_app. unfold len at 2. rewrite length_replicate. lia.
  - by rewrite take_app_length.
  - rewrite drop_app_length. by apply Forall_replicate.
Qed.

Lemma FixLength_roundtrip_zero_padded_witness :
  exists stripped : list byte,
    BuildIndexKey (FixLengthIndexKeys 8) [97] [1; 2; 3]
      ≫= StripRowID (FixLengthIndexKeys 8) = Ok stripped
    /\ len stripped = 8
    /\ take 3 stripped = [1; 2; 3]
    /\ Forall (fun x => x = 0) (drop 3 stripped).
Proof.
  apply (FixLength_roundtrip_zero_padded (FixLengthIndexKeys 8) [97] [1; 2; 3]).
  - by vm_compute.
  - done.
  - by vm_compute.
Defined.

(** ** Index key codecs: distinct entries, distinct keys *)

(** X6. With the dynamic codec two index entries that differ in the
    searchable key or in the row identifier never get the same key. *)
Theorem Max255_BuildIndexKey_inj (sk1 rowID1 sk2 rowID2 k : list byte) :
  BuildIndexKey Max255DynamicLengthIndexKeys sk1 rowID1 = Ok k ->
  BuildIndexKey Max255DynamicLengthIndexKeys sk2 rowID2 = Ok k ->
  sk1 = sk2 /\ rowID1 = rowID2.
Proof.
  simpl. intros H1 H2.
  apply Max255_BuildIndexKey_inv in H1 as (_ & _ & ->).
  apply Max255_BuildIndexKey_inv in H2 as (_ & _ & Heq).
  injection Heq as Hlen Heq.
  apply app_inj_1 in Heq as [-> ->]; [done |]. unfold len in Hlen. lia.
Qed.

Lemma Max255_BuildIndexKey_inj_witness :
  ([97; 98] : list byte) = [97; 98] /\ ([1] : list byte) = [1].
Proof.
  apply (Max255_BuildIndexKey_inj [97; 98] [1] [97; 98] [1] [2; 97; 98; 1]);
    reflexivity.
Defined.

(** X7. With the fixed-length codec two entries with the same key have the
    same searchable key, and the same row identifier up to trailing zero
    bytes: row identifiers of one length are told apart, a row identifier and
    its zero-padded extension are not. *)
Theorem FixLength_BuildIndexKey_inj (c : FixLengthIndexKeyCodec)
    (sk1 rowID1 sk2 rowID2 k : list byte) :
  BuildIndexKey c sk1 rowID1 = Ok k ->
  BuildIndexKey c sk2 rowID2 = Ok k ->
  sk1 = sk2 /\ (len rowID1 = len rowID2 -> rowID1 = rowID2).
Proof.
  simpl. intros H1 H2.
  apply FixLength_BuildIndexKey_inv in H1 as (_ & Hle1 & ->).
  apply FixLength_BuildIndexKey_inv in H2 as (_ & Hle2 & Heq).
  pose proof (len_nonneg rowID1). pose proof (len_nonneg rowID2).
  apply app_inj_2 in Heq as [-> Heq].
  - split; [done |]. intros Hlen.
    apply app_inj_1 in Heq as [-> _]; [done |]. unfold len in Hlen. lia.
  - rewrite !length_app, !length_replicate. unfold len in *. lia.
Qed.

Lemma FixLength_BuildIndexKey_inj_witness :
  ([97] : list byte) = [97] /\ (len [1; 2] = len [1; 2] -> [1; 2] = [1; 2]).
Proof.
  apply (FixLength_BuildIndexKey_inj (FixLengthIndexKeys 2)
           [97] [1; 2] [97] [1; 2] [97; 1; 2]); reflexivity.
Defined.

(** The padding makes two different row identifiers collide. *)
Lemma FixLength_BuildIndexKey_collision :
  BuildIndexKey (FixLengthIndexKeys 2) [97] [1]
    = BuildIndexKey (FixLengthIndexKeys 2) [97] [1; 0].
Proof. reflexivity. Qed.

(** ** Index key codecs: lookups by searchable key *)

(** X8. With the dynamic codec the keys of one searchable key are those that
    start with its length-prefixed form: a prefix scan for a searchable key
    finds all its entries and no entry of another searchable key. *)
Theorem Max255_prefix_scan (searchableKey sk' rowID' p k : list byte) :
  AddLengthPrefix searchableKey = Ok p ->
  BuildIndexKey Max255DynamicLengthIndexKeys sk' rowID' = Ok k ->
  p `prefix_of` k <-> sk' = searchableKey.
Proof.
  simpl. intros Hp Hk.
  apply Max255_BuildIndexKey_inv in Hk as (_ & Hle' & ->).
  assert (len searchableKey <= 255) as Hle.
  { destruct (Z.le_gt_cases (len searchableKey) 255) as [? | Hgt]; [done |].
    destruct (AddLengthPrefix_Panic searchableKey Hgt) as [msg Hmsg].
    congruence. }
  rewrite AddLengthPrefix_Ok in Hp by done. injection Hp as <-.
  split.
  - intros [tail Heq]. simpl in Heq. injection Heq as Hlen Heq.
    apply app_inj_1 in Heq as [-> _]; [done |]. unfold len in Hlen. lia.
  - intros ->. exists rowID'. done.
Qed.

Lemma Max255_prefix_scan_witness :
  [3; 97; 98; 99] `prefix_of` [3; 97; 98; 99; 49; 50]
  <-> ([97; 98; 99] : list byte) = [97; 98; 99].
Proof.
  apply (Max255_prefix_scan [97; 98; 99] [97; 98; 99] [49; 50]); reflexivity.
Defined.

(** X9. With the dynamic codec the entries of one searchable key are stored
    in the order of their row identifiers. *)
Theorem Max255_order_by_rowID (searchableKey rowID1 rowID2 k1 k2 : list byte) :
  BuildIndexKey Max255DynamicLengthIndexKeys searchableKey rowID1 = Ok k1 ->
  BuildIndexKey Max255DynamicLengthIndexKeys searchableKey rowID2 = Ok k2 ->
  bytes_Compare k1 k2 = bytes_Compare rowID1 rowID2.
Proof.
  simpl. intros H1 H2.
  apply Max255_BuildIndexKey_inv in H1 as (_ & _ & ->).
  apply Max255_BuildIndexKey_inv in H2 as (_ & _ & ->).
  cbn [bytes_Compare]. rewrite Z.compare_refl.
  apply bytes_Compare_app_prefix.
Qed.

Lemma Max255_order_by_rowID_witness :
  bytes_Compare [1; 97; 0; 5] [1; 97; 0; 6] = bytes_Compare [0; 5] [0; 6].
Proof.
  apply (Max255_order_by_rowID [97] [0; 5] [0; 6]); reflexivity.
Defined.

(** ** Primary keys: when a key is built *)

Lemma primaryKeyFieldBytes_accepted (f : value) :
  field_accepted f -> primaryKeyFieldBytes f = Ok (fieldEncoding f).
Proof.
  destruct f; simpl; try done.
  - apply AddLengthPrefix_Ok.
  - intros _. apply NullTerminatedBytes_Ok.
Qed.

Lemma primaryKeyFieldBytes_Ok_inv (f : value) (bs : list byte) :
  primaryKeyFieldBytes f = Ok bs -> field_accepted f.
Proof.
  destruct f as [v | | | | | |]; simpl; try done.
  intros Hok. destruct (Z.le_gt_cases (len v) 255) as [? | Hgt]; [done |].
  destruct (AddLengthPrefix_Panic v Hgt) as [msg Hmsg]. congruence.
Qed.

Lemma fieldsBytes_accepted (fields : list value) :
  Forall field_accepted fields ->
  fieldsBytes fields = Ok (fieldEncoding <$> fields).
Proof.
  induction 1 as [| f fields Hf _ IH]; [done |].
  simpl. rewrite primaryKeyFieldBytes_accepted by done. simpl. by rewrite IH.
Qed.

Lemma fieldsBytes_Ok_inv (fields : list value) (bss : list (list byte)) :
  fieldsBytes fields = Ok bss -> Forall field_accepted fields.
Proof.
  revert bss. induction fields as [| f fields IH]; intros bss; [done |].
  simpl. destruct (primaryKeyFieldBytes f) as [bs |] eqn:Hf; [| done]. simpl.
  destruct (fieldsBytes fields) as [bss' |]; [| done]. intros _.
  constructor; [by eapply primaryKeyFieldBytes_Ok_inv | by eapply IH].
Qed.

(** X10. [buildPrimaryKey] returns a key exactly when every part is a byte
    string of at most 255 bytes, a string or a [uint64]; in every other case
    it panics.  The key is the concatenation of the encodings of the parts. *)
Theorem buildPrimaryKey_Ok_iff (fields : list value) :
  ((exists k, buildPrimaryKey fields = Ok k) <-> Forall field_accepted fields)
  /\ (forall k, buildPrimaryKey fields = Ok k ->
        k = concat (fieldEncoding <$> fields)).
Proof.
  unfold buildPrimaryKey. split; [split |].
  - intros [k Hk]. destruct (fieldsBytes fields) as [bss |] eqn:Hbss; [| done].
    by eapply fieldsBytes_Ok_inv.
  - intros Hok. rewrite fieldsBytes_accepted by done. by eexists.
  - intros k Hk. destruct (fieldsBytes fields) as [bss |] eqn:Hbss; [| done].
    rewrite fieldsBytes_accepted in Hbss by (by eapply fieldsBytes_Ok_inv).
    injection Hbss as <-. simpl in Hk. injection Hk as <-.
    by rewrite foldl_append.
Qed.

(** X11. The panic of [buildPrimaryKey] is the one of the first part, from
    the left, that cannot be encoded; the parts after it are not looked at. *)
Theorem buildPrimaryKey_first_panic (pre post : list value) (f : value)
    (msg : string) :
  Forall field_accepted pre ->
  primaryKeyFieldBytes f = Panic msg ->
  buildPrimaryKey (pre ++ f :: post) = Panic msg.
Proof.
  intros Hpre Hf. unfold buildPrimaryKey.
  assert (fieldsBytes (pre ++ f :: post) = Panic msg) as ->; [| done].
  induction Hpre as [| g pre Hg _ IH]; simpl.
  - by rewrite Hf.
  - rewrite primaryKeyFieldBytes_accepted by done. simpl. by rewrite IH.
Qed.

Lemma buildPrimaryKey_first_panic_witness :
  buildPrimaryKey ([VString "C01"] ++ VInt 7 :: [VBool true])
    = Panic "Type int not allowed as primary key field".
Proof.
  apply (buildPrimaryKey_first_panic [VString "C01"] [VBool true] (VInt 7)).
  - by repeat constructor.
  - reflexivity.
Defined.

Lemma fieldsBytes_app (fs gs : list value) :
  fieldsBytes (fs ++ gs) =
    bs1 ← fieldsBytes fs; bs2 ← fieldsBytes gs; Ok (bs1 ++ bs2).
Proof.
  induction fs as [| f fs IH]; simpl.
  - by destruct (fieldsBytes gs).
  - destruct (primaryKeyFieldBytes f); [| done]. simpl. rewrite IH.
    destruct (fieldsBytes fs); [| done]. simpl.
    by destruct (fieldsBytes gs).
Qed.

(** X12. The key of a list of parts put after another is the key of the
    first list followed by the key of the second: a composite key starts
    with the key of its leading parts. *)
Theorem buildPrimaryKey_app (fs gs : list value) (k1 k2 : list byte) :
  buildPrimaryKey fs = Ok k1 -> buildPrimaryKey gs = Ok k2 ->
  buildPrimaryKey (fs ++ gs) = Ok (k1 ++ k2).
Proof.
  unfold buildPrimaryKey. rewrite fieldsBytes_app.
  destruct (fieldsBytes fs) as [bs1 |]; [| done].
  destruct (fieldsBytes gs) as [bs2 |]; [| done]. simpl.
  intros [= <-] [= <-]. by rewrite !foldl_append, concat_app.
Qed.

Lemma buildPrimaryKey_app_witness :
  buildPrimaryKey ([VString "C01"] ++ [VBytes [7]])
    = Ok ([67; 48; 49; 0] ++ [1; 7]).
Proof. apply buildPrimaryKey_app; reflexivity. Defined.

(** ** Primary keys: integer parts *)

Lemma fieldsBytes_first_panic (pre post : list value) (f : value)
    (msg : string) :
  Forall field_accepted pre ->
  primaryKeyFieldBytes f = Panic msg ->
  fieldsBytes (pre ++ f :: post) = Panic msg.
Proof.
  intros Hpre Hf. induction Hpre as [| g pre Hg _ IH]; simpl.
  - by rewrite Hf.
  - rewrite primaryKeyFieldBytes_accepted by done. simpl. by rewrite IH.
Qed.

Lemma buildPrimaryKey_accepted (fields : list value) :
  Forall field_accepted fields ->
  buildPrimaryKey fields = Ok (concat (fieldEncoding <$> fields)).
Proof.
  intros Hok. unfold buildPrimaryKey. rewrite fieldsBytes_accepted by done.
  simpl. by rewrite foldl_append.
Qed.

(** C5. Two lists of primary-key parts that differ in one [uint32] part only
    get no keys to compare: [buildPrimaryKey] panics on both, whatever the
    two integers are, although a [uint32] is one of the fixed-width unsigned
    integers the documentation of [PrimaryKeyFields] promises to encode. *)
Theorem buildPrimaryKey_uint32_no_order (pre post : list value) (a b : Z) :
  Forall field_accepted pre ->
  buildPrimaryKey (pre ++ VUint32 a :: post)
    = Panic "Type uint32 not allowed as primary key field"
  /\ buildPrimaryKey (pre ++ VUint32 b :: post)
       = Panic "Type uint32 not allowed as primary key field".
Proof.
  intros Hpre. unfold buildPrimaryKey.
  by rewrite !(fieldsBytes_first_panic pre post _
                 "Type uint32 not allowed as primary key field").
Qed.

Lemma buildPrimaryKey_uint32_no_order_witness :
  buildPrimaryKey ([VString "C01"] ++ VUint32 1 :: [VBytes [7]])
    = Panic "Type uint32 not allowed as primary key field"
  /\ buildPrimaryKey ([VString "C01"] ++ VUint32 2 :: [VBytes [7]])
       = Panic "Type uint32 not allowed as primary key field".
Proof.
  apply (buildPrimaryKey_uint32_no_order [VString "C01"] [VBytes [7]] 1 2).
  by repeat constructor.
Defined.

(** X28. Two lists of primary-key parts that differ in one [uint64] part
    only, the other parts being any the encoder accepts, are encoded to keys
    whose byte-lexicographic order is the numeric order of that part. *)
Theorem buildPrimaryKey_uint64_order (pre post : list value) (a b : Z) :
  Forall field_accepted pre -> Forall field_accepted post ->
  0 <= a < 2 ^ 64 -> 0 <= b < 2 ^ 64 ->
  exists ka kb : list byte,
    buildPrimaryKey (pre ++ VUint64 a :: post) = Ok ka
    /\ buildPrimaryKey (pre ++ VUint64 b :: post) = Ok kb
    /\ bytes_Compare ka kb = (a ?= b).
Proof.
  intros Hpre Hpost Ha Hb.
  assert (forall v, Forall field_accepted (pre ++ VUint64 v :: post)) as Hall.
  { intros v. apply Forall_app. split; [done |]. by constructor. }
  eexists _, _. split; [| split].
  - apply buildPrimaryKey_accepted, Hall.
  - apply buildPrimaryKey_accepted, Hall.
  - rewrite !fmap_app, !concat_app. cbn [fmap list_fmap concat fieldEncoding].
    rewrite bytes_Compare_app_prefix, bytes_Compare_app_suffix
      by (by rewrite !EncodeSequence_length).
    by apply EncodeSequence_Compare.
Qed.

Lemma buildPrimaryKey_uint64_order_witness :
  exists ka kb : list byte,
    buildPrimaryKey ([VString "C01"] ++ VUint64 255 :: [VBytes [1; 2]]) = Ok ka
    /\ buildPrimaryKey ([VString "C01"] ++ VUint64 256 :: [VBytes [1; 2]])
         = Ok kb
    /\ bytes_Compare ka kb = (255 ?= 256).
Proof.
  apply (buildPrimaryKey_uint64_order [VString "C01"] [VBytes [1; 2]] 255 256).
  - by repeat constructor.
  - constructor; [by vm_compute | constructor].
  - lia.
  - lia.
Defined.

(** ** Primary keys: the order of the encodings *)

Lemma bytes_Compare_lex (a b r1 r2 : list byte) :
  length a = length b ->
  bytes_Compare (a ++ r1) (b ++ r2) =
    match bytes_Compare a b with
    | Eq => bytes_Compare r1 r2
    | c => c
    end.
Proof.
  revert b. induction a as [| x a IH]; intros [| y b] Hlen; try done.
  simpl in *. destruct (x ?= y); [apply IH; lia | done | done].
Qed.

Lemma bytes_Compare_nul_terminated (x y r1 r2 : list byte) :
  Forall (Z.lt 0) x -> Forall (Z.lt 0) y ->
  bytes_Compare ((x ++ [0]) ++ r1) ((y ++ [0]) ++ r2) =
    match bytes_Compare x y with
    | Eq => bytes_Compare r1 r2
    | c => c
    end.
Proof.
  intros Hx. revert y.
  induction Hx as [| a x Ha _ IH]; intros y Hy;
    destruct Hy as [| b y Hb Hy]; cbn [app bytes_Compare].
  - by rewrite Z.compare_refl.
  - by rewrite (proj2 (Z.compare_lt_iff 0 b)) by lia.
  - by rewrite (proj2 (Z.compare_gt_iff a 0)) by lia.
  - destruct (a ?= b); [by apply IH | done | done].
Qed.

Lemma string_bytes_nonneg (s : string) : Forall (Z.le 0) (string_bytes s).
Proof.
  unfold string_bytes. apply Forall_fmap, Forall_forall. intros c _.
  simpl. lia.
Qed.

Lemma string_bytes_pos (s : string) :
  0 ∉ string_bytes s -> Forall (Z.lt 0) (string_bytes s).
Proof.
  intros Hnul. pose proof (string_bytes_nonneg s) as Hge.
  induction Hge as [| b bs Hb _ IH]; [constructor |].
  apply not_elem_of_cons in Hnul as [Hne Hnul].
  constructor; [lia | by apply IH].
Qed.

(** X13. Keys that start with a string part are ordered by that string
    first, and by what follows when the strings are equal, provided the
    strings hold no NUL. *)
Theorem NullTerminatedBytes_order (s t : string) (r1 r2 : list byte) :
  0 ∉ string_bytes s -> 0 ∉ string_bytes t ->
  exists ks kt : list byte,
    NullTerminatedBytes s = Ok ks /\ NullTerminatedBytes t = Ok kt
    /\ bytes_Compare (ks ++ r1) (kt ++ r2) =
         match bytes_Compare (string_bytes s) (string_bytes t) with
         | Eq => bytes_Compare r1 r2
         | c => c
         end.
Proof.
  intros Hs Ht. eexists _, _.
  split; [apply NullTerminatedBytes_Ok |].
  split; [apply NullTerminatedBytes_Ok |].
  by apply bytes_Compare_nul_terminated; apply string_bytes_pos.
Qed.

Lemma NullTerminatedBytes_order_witness :
  exists ks kt : list byte,
    NullTerminatedBytes "C0" = Ok ks /\ NullTerminatedBytes "C01" = Ok kt
    /\ bytes_Compare (ks ++ [9]) (kt ++ [1]) =
         match bytes_Compare (string_bytes "C0") (string_bytes "C01") with
         | Eq => bytes_Compare [9] [1]
         | c => c
         end.
Proof.
  apply (NullTerminatedBytes_order "C0" "C01" [9] [1]); simpl; compute_done.
Defined.

(** X14. Keys that start with a byte-string part are ordered by the length
    of that byte string first, then by its content, then by what follows: a
    shorter byte string comes before a longer one whatever they hold. *)
Theorem AddLengthPrefix_order (a b r1 r2 : list byte) :
  len a <= 255 -> len b <= 255 ->
  exists ka kb : list byte,
    AddLengthPrefix a = Ok ka /\ AddLengthPrefix b = Ok kb
    /\ bytes_Compare (ka ++ r1) (kb ++ r2) =
         match len a ?= len b with
         | Eq => match bytes_Compare a b with
                 | Eq => bytes_Compare r1 r2
                 | c => c
                 end
         | c => c
         end.
Proof.
  intros Ha Hb. eexists _, _.
  split; [by apply AddLengthPrefix_Ok |].
  split; [by apply AddLengthPrefix_Ok |].
  cbn [app bytes_Compare].
  destruct (Z.compare_spec (len a) (len b)) as [Heq | |]; try done.
  apply bytes_Compare_lex. unfold len in Heq. lia.
Qed.

Lemma AddLengthPrefix_order_witness :
  exists ka kb : list byte,
    AddLengthPrefix [98] = Ok ka /\ AddLengthPrefix [97; 97] = Ok kb
    /\ bytes_Compare (ka ++ []) (kb ++ []) =
         match len [98] ?= len [97; 97] with
         | Eq => match bytes_Compare [98] [97; 97] with
                 | Eq => bytes_Compare [] []
                 | c => c
                 end
         | c => c
         end.
Proof. apply (AddLengthPrefix_order [98] [97; 97] [] []); by vm_compute. Defined.

(** X15. The end of a string part can be found again: two NUL-free strings
    whose encodings, each followed by anything, are equal are the same
    string, followed by the same bytes. *)
Theorem NullTerminatedBytes_prefix_free (s t : string) (ks kt r1 r2 : list byte) :
  0 ∉ string_bytes s -> 0 ∉ string_bytes t ->
  NullTerminatedBytes s = Ok ks -> NullTerminatedBytes t = Ok kt ->
  ks ++ r1 = kt ++ r2 -> s = t /\ r1 = r2.
Proof.
  intros Hs Ht. rewrite !NullTerminatedBytes_Ok. intros [= <-] [= <-] Heq.
  apply nul_terminated_prefix_free in Heq as [Heq ->]; [| done | done].
  split; [| done]. by apply string_bytes_inj.
Qed.

Lemma NullTerminatedBytes_prefix_free_witness :
  "C01" = "C01" /\ ([7] : list byte) = [7].
Proof.
  apply (NullTerminatedBytes_prefix_free "C01" "C01"
           [67; 48; 49; 0] [67; 48; 49; 0] [7] [7]);
    try reflexivity; simpl; compute_done.
Defined.

(** With a NUL inside, the boundary is lost: one string is encoded as two
    others are. *)
Lemma NullTerminatedBytes_embedded_nul :
  buildPrimaryKey [VString (String "a" (String Ascii.zero "b"))]
    = buildPrimaryKey [VString "a"; VString "b"].
Proof. reflexivity. Qed.

(** X16. The end of a byte-string part can be found again: two byte strings
    whose length-prefixed forms, each followed by anything, are equal are the
    same byte string, followed by the same bytes. *)
Theorem AddLengthPrefix_prefix_free (a b ka kb r1 r2 : list byte) :
  AddLengthPrefix a = Ok ka -> AddLengthPrefix b = Ok kb ->
  ka ++ r1 = kb ++ r2 -> a = b /\ r1 = r2.
Proof.
  intros Ha Hb.
  assert (forall x k, AddLengthPrefix x = Ok k -> k = len x :: x) as Hinv.
  { intros x k Hk. destruct (Z.le_gt_cases (len x) 255) as [Hle | Hgt].
    - rewrite AddLengthPrefix_Ok in Hk by done. by injection Hk.
    - destruct (AddLengthPrefix_Panic x Hgt) as [msg Hmsg]. congruence. }
  rewrite (Hinv _ _ Ha), (Hinv _ _ Hb). simpl. intros [= Hlen Heq].
  apply app_inj_1 in Heq as [-> ->]; [done |]. unfold len in Hlen. lia.
Qed.

Lemma AddLengthPrefix_prefix_free_witness :
  ([1; 2] : list byte) = [1; 2] /\ ([7] : list byte) = [7].
Proof.
  apply (AddLengthPrefix_prefix_free [1; 2] [1; 2] [2; 1; 2] [2; 1; 2] [7] [7]);
    reflexivity.
Defined.

(** ** [contains] *)

(** X17. [contains] tells whether the string is an element of the slice. *)
Theorem contains_spec (s : list string) (e : string) :
  contains s e = true <-> e ∈ s.
Proof.
  induction s as [| a s IH]; simpl.
  - split; [done |]. by intros ?%elem_of_nil.
  - destruct (decide (a = e)) as [-> | Hne].
    + split; [intros _; apply list_elem_of_here | done].
    + rewrite IH, elem_of_cons. intuition congruence.
Qed.

(** ** The signers of [SignData] *)

Lemma seen_lookup (stored : list string) (seen0 : gmap string bool)
    (signer : string) :
  is_Some (foldl (fun (seen : gmap string bool) s => <[s := true]> seen)
             seen0 stored !! signer)
  <-> signer ∈ stored \/ is_Some (seen0 !! signer).
Proof.
  revert seen0. induction stored as [| a stored IH]; intros seen0; simpl.
  - rewrite elem_of_nil. tauto.
  - rewrite IH, elem_of_cons, lookup_insert_is_Some.
    destruct (decide (a = signer)); intuition congruence.
Qed.

Lemma mergeSigners_loop (seen : gmap string bool) (acc request : list string) :
  foldl (fun signers signer =>
           match seen !! signer with
           | Some _ => signers
           | None => signers ++ [signer]
           end) acc request
  = acc ++ filter (fun signer => seen !! signer = None) request.
Proof.
  revert acc. induction request as [| a request IH]; intros acc; simpl.
  - by rewrite app_nil_r.
  - rewrite IH. destruct (seen !! a) eqn:Ha.
    + by rewrite filter_cons_False by congruence.
    + by rewrite filter_cons_True, <- app_assoc by done.
Qed.

Lemma mergeSigners_closed (stored request : list string) :
  mergeSigners stored request
    = stored ++ filter (fun signer => signer ∉ stored) request.
Proof.
  unfold mergeSigners. rewrite mergeSigners_loop. f_equal.
  apply list_filter_iff. intros signer.
  rewrite <- not_elem_of_dom, elem_of_dom, seen_lookup.
  rewrite lookup_empty. split; [tauto |].
  intros Hnot [? | [? ?]]; done.
Qed.

(** X18. The merge keeps the stored signers, in their order, and appends the
    signers of the request that are not stored, in the order of the request:
    no stored signer is lost, and every signer of the request is in the
    result. *)
Theorem mergeSigners_spec (stored request : list string) :
  mergeSigners stored request
    = stored ++ filter (fun signer => signer ∉ stored) request
  /\ (forall signer,
        signer ∈ mergeSigners stored request
        <-> signer ∈ stored \/ signer ∈ request).
Proof.
  pose proof (mergeSigners_closed stored request) as Heq.
  split; [done |]. intros signer.
  rewrite Heq, elem_of_app, list_elem_of_filter.
  destruct (decide (signer ∈ stored)); tauto.
Qed.

(** X19. When neither the stored signers nor the request repeat a signer,
    the merged signers do not either. *)
Theorem mergeSigners_NoDup (stored request : list string) :
  NoDup stored -> NoDup request -> NoDup (mergeSigners stored request).
Proof.
  intros Hs Hr. rewrite mergeSigners_closed.
  apply NoDup_app. split; [done |]. split.
  - intros signer Hin [Hnot _]%list_elem_of_filter. done.
  - by apply NoDup_filter.
Qed.

Lemma mergeSigners_NoDup_witness :
  NoDup (mergeSigners ["alice"; "bob"] ["bob"; "carol"]).
Proof. apply mergeSigners_NoDup; compute_done. Defined.

(** A signer that is new and repeated in the request is appended each time:
    [seen] is not extended by the second loop. *)
Lemma mergeSigners_repeats :
  mergeSigners ["alice"] ["bob"; "bob"] = ["alice"; "bob"; "bob"].
Proof. reflexivity. Qed.

(** ** [ValidateBasic] of the messages *)

Section Messages.
Context `{Imports}.

Lemma length_eqb_0 {A} (l : list A) : (length l =? 0)%nat = false <-> l <> [].
Proof. by destruct l. Qed.

Lemma MsgCreateClass_issuersLoop1_None (issuers : list string) :
  MsgCreateClass.issuersLoop1 issuers = None <-> Forall valid_address issuers.
Proof.
  unfold valid_address. induction issuers as [| issuer rest IH]; simpl.
  - split; [constructor | done].
  - rewrite Forall_cons.
    destruct (AccAddressFromBech32 issuer) as [addr | err].
    + rewrite IH. split; [| tauto]. intros Hrest. split; [by eexists | done].
    + split; [done |]. by intros [[addr Haddr] _].
Qed.

(** The second loop finds nothing the first loop let through. *)
Lemma MsgCreateClass_issuersLoop2_None (issuers : list string) :
  MsgCreateClass.issuersLoop1 issuers = None ->
  MsgCreateClass.issuersLoop2 issuers = None.
Proof.
  induction issuers as [| issuer rest IH]; simpl; [done |].
  by destruct (AccAddressFromBech32 issuer).
Qed.

(** X20. [MsgCreateClass.ValidateBasic] accepts a message exactly when the
    admin is a valid address, there is an issuer, the credit type is not
    empty and every issuer is a valid address. *)
Theorem MsgCreateClass_ValidateBasic_None (m : MsgCreateClass.t) :
  MsgCreateClass.ValidateBasic m = None
  <-> valid_address (MsgCreateClass.Admin m)
      /\ MsgCreateClass.Issuers m <> []
      /\ MsgCreateClass.CreditType m <> ""
      /\ Forall valid_address (MsgCreateClass.Issuers m).
Proof.
  rewrite <- MsgCreateClass_issuersLoop1_None, <- length_eqb_0.
  unfold MsgCreateClass.ValidateBasic, valid_address.
  destruct (AccAddressFromBech32 (MsgCreateClass.Admin m)) as [addr | err].
  2: { split; [done |]. by intros [[addr Haddr] _]. }
  destruct (length (MsgCreateClass.Issuers m) =? 0)%nat.
  { split; [done |]. by intros (_ & ? & _). }
  destruct (MsgCreateClass.CreditType m) as [| c ct] eqn:Hct; simpl.
  { split; [done |]. by intros (_ & _ & ? & _). }
  destruct (MsgCreateClass.issuersLoop1 (MsgCreateClass.Issuers m)) eqn:Hloop.
  { split; [done |]. by intros (_ & _ & _ & ?). }
  rewrite MsgCreateClass_issuersLoop2_None by done.
  split; [| done]. intros _. split; [by eexists | done].
Qed.

(** X21. Whatever [MsgCreateClass.ValidateBasic] rejects, the error is the
    one of the admin address wrapped with "admin", or an [ErrInvalidRequest]:
    the error of the second loop over the issuers, which keeps the error of
    the address and names the issuer, is never returned. *)
Theorem MsgCreateClass_ValidateBasic_errors (m : MsgCreateClass.t)
    (err : sdkerrors.t) :
  MsgCreateClass.ValidateBasic m = Some err ->
  (exists cause,
     AccAddressFromBech32 (MsgCreateClass.Admin m) = inr cause
     /\ err = sdkerrors.Wrap cause "admin")
  \/ (exists description,
        err = sdkerrors.Wrap sdkerrors.ErrInvalidRequest description).
Proof.
  unfold MsgCreateClass.ValidateBasic.
  destruct (AccAddressFromBech32 (MsgCreateClass.Admin m)) as [addr | cause].
  2: { intros [= <-]. left. by eexists. }
  destruct (length (MsgCreateClass.Issuers m) =? 0)%nat.
  { intros [= <-]. right. by eexists. }
  destruct (String.length (MsgCreateClass.CreditType m) =? 0)%nat.
  { intros [= <-]. right. by eexists. }
  destruct (MsgCreateClass.issuersLoop1 (MsgCreateClass.Issuers m))
    as [e |] eqn:Hloop.
  - intros [= <-]. right. clear -Hloop.
    induction (MsgCreateClass.Issuers m) as [| issuer rest IH];
      simpl in Hloop; [done |].
    destruct (AccAddressFromBech32 issuer); [by apply IH |].
    injection Hloop as <-. by eexists.
  - by rewrite MsgCreateClass_issuersLoop2_None.
Qed.

Lemma MsgCancel_creditsLoop_None (credits : list MsgCancel.CancelCredits) :
  MsgCancel.creditsLoop credits = None <-> Forall cancel_credit_ok credits.
Proof.
  unfold cancel_credit_ok. induction credits as [| credit rest IH]; simpl.
  - split; [constructor | done].
  - rewrite Forall_cons.
    destruct (decide (MsgCancel.BatchDenom credit = "")) as [Hd | Hd].
    { split; [done |]. by intros [[? _] _]. }
    destruct (ParsePositiveDecimal (MsgCancel.Amount credit)) as [amount | e].
    + rewrite IH. split; [| tauto].
      intros Hrest. split; [| done]. split; [done | by eexists].
    + split; [done |]. by intros [[_ [amount Hamount]] _].
Qed.

Lemma MsgRetire_creditsLoop_None (credits : list MsgRetire.RetireCredits) :
  MsgRetire.creditsLoop credits = None <-> Forall retire_credit_ok credits.
Proof.
  unfold retire_credit_ok. induction credits as [| credit rest IH]; simpl.
  - split; [constructor | done].
  - rewrite Forall_cons.
    destruct (decide (MsgRetire.BatchDenom credit = "")) as [Hd | Hd].
    { split; [done |]. by intros [[? _] _]. }
    destruct (ParsePositiveDecimal (MsgRetire.Amount credit)) as [amount | e].
    + rewrite IH. split; [| tauto].
      intros Hrest. split; [| done]. split; [done | by eexists].
    + split; [done |]. by intros [[_ [amount Hamount]] _].
Qed.

(** X22. [MsgCancel.ValidateBasic] accepts a message exactly when the holder
    is a valid address, there is a credit, and every credit names a batch
    and has an amount that parses as a positive decimal. *)
Theorem MsgCancel_ValidateBasic_None (m : MsgCancel.t) :
  MsgCancel.ValidateBasic m = None
  <-> valid_address (MsgCancel.Holder m)
      /\ MsgCancel.Credits m <> []
      /\ Forall cancel_credit_ok (MsgCancel.Credits m).
Proof.
  rewrite <- MsgCancel_creditsLoop_None, <- length_eqb_0.
  unfold MsgCancel.ValidateBasic, valid_address.
  destruct (AccAddressFromBech32 (MsgCancel.Holder m)) as [addr | err].
  2: { split; [done |]. by intros [[addr Haddr] _]. }
  destruct (length (MsgCancel.Credits m) =? 0)%nat.
  { split; [done |]. by intros (_ & ? & _). }
  split; [| tauto]. intros Hloop. split; [by eexists | done].
Qed.

(** X23. [MsgRetire.ValidateBasic] accepts a message exactly when the holder
    is a valid address, there is a credit, every credit names a batch and has
    an amount that parses as a positive decimal, and the location is valid. *)
Theorem MsgRetire_ValidateBasic_None (m : MsgRetire.t) :
  MsgRetire.ValidateBasic m = None
  <-> valid_address (MsgRetire.Holder m)
      /\ MsgRetire.Credits m <> []
      /\ Forall retire_credit_ok (MsgRetire.Credits m)
      /\ validateLocation (MsgRetire.Location m) = None.
Proof.
  rewrite <- MsgRetire_creditsLoop_None, <- length_eqb_0.
  unfold MsgRetire.ValidateBasic, valid_address.
  destruct (AccAddressFromBech32 (MsgRetire.Holder m)) as [addr | err].
  2: { split; [done |]. by intros [[addr Haddr] _]. }
  destruct (length (MsgRetire.Credits m) =? 0)%nat.
  { split; [done |]. by intros (_ & ? & _). }
  destruct (MsgRetire.creditsLoop (MsgRetire.Credits m)).
  { split; [done |]. by intros (_ & _ & ? & _). }
  split; [| tauto]. intros Hloc. split; [by eexists | done].
Qed.

End Messages.

Lemma MsgCreateClass_ValidateBasic_errors_witness :
  let m := {| MsgCreateClass.Admin := "regen1xyz";
              MsgCreateClass.Issuers := ["regen1abc"; "cosmos1abc"];
              MsgCreateClass.CreditType := "carbon" |} in
  let err := sdkerrors.Wrap sdkerrors.ErrInvalidRequest
               "decoding bech32 failed" in
  (exists cause,
     AccAddressFromBech32 (Imports := sampleImports) (MsgCreateClass.Admin m)
       = inr cause
     /\ err = sdkerrors.Wrap cause "admin")
  \/ (exists description,
        err = sdkerrors.Wrap sdkerrors.ErrInvalidRequest description).
Proof.
  intros m err.
  apply (MsgCreateClass_ValidateBasic_errors (H := sampleImports) m err).
  reflexivity.
Defined.

Section MessagesWithAmounts.
Context `{Imports}.

Lemma MsgSend_checkCredit_None (credit : MsgSend.SendCredits) :
  MsgSend.checkCredit credit = None <-> send_credit_ok credit.
Proof.
  unfold MsgSend.checkCredit, send_credit_ok, retirement_ok.
  destruct (decide (MsgSend.BatchDenom credit = "")) as [Hd | Hd].
  { split; [done |]. by intros [? _]. }
  destruct (ParseNonNegativeDecimal (MsgSend.TradableAmount credit))
    as [tradable | e].
  2: { split; [done |]. by intros (_ & [tradable ?] & _). }
  destruct (ParseNonNegativeDecimal (MsgSend.RetiredAmount credit))
    as [retired | e].
  2: { split; [done |]. by intros (_ & _ & [retired [? _]]). }
  split.
  - intros Hloc. split; [done |]. split; [by eexists |].
    exists retired. split; [done |]. intros Hz. by rewrite Hz in Hloc.
  - intros (_ & _ & [retired' [[= <-] Hloc]]).
    destruct (IsZero retired); [done |]. by apply Hloc.
Qed.

Lemma MsgSend_creditsLoop_None (credits : list MsgSend.SendCredits) :
  MsgSend.creditsLoop credits = None <-> Forall send_credit_ok credits.
Proof.
  induction credits as [| credit rest IH]; simpl.
  - split; [constructor | done].
  - rewrite Forall_cons, <- MsgSend_checkCredit_None, <- IH.
    destruct (MsgSend.checkCredit credit); [| tauto].
    split; [done |]. by intros [? _].
Qed.

(** X24. [MsgSend.ValidateBasic] accepts a message exactly when sender and
    recipient are valid addresses, there is a credit, and every credit names
    a batch, has a tradable and a retired amount that parse as non-negative
    decimals (an empty amount is parsed too) and, when the retired amount is
    not zero, a valid retirement location. *)
Theorem MsgSend_ValidateBasic_None (m : MsgSend.t) :
  MsgSend.ValidateBasic m = None
  <-> valid_address (MsgSend.Sender m)
      /\ valid_address (MsgSend.Recipient m)
      /\ MsgSend.Credits m <> []
      /\ Forall send_credit_ok (MsgSend.Credits m).
Proof.
  rewrite <- MsgSend_creditsLoop_None, <- length_eqb_0.
  unfold MsgSend.ValidateBasic, valid_address.
  destruct (AccAddressFromBech32 (MsgSend.Sender m)) as [addr | err].
  2: { split; [done |]. by intros [[addr Haddr] _]. }
  destruct (AccAddressFromBech32 (MsgSend.Recipient m)) as [addr' | err].
  2: { split; [done |]. by intros (_ & [addr' Haddr] & _). }
  destruct (length (MsgSend.Credits m) =? 0)%nat.
  { split; [done |]. by intros (_ & _ & ? & _). }
  split; [| tauto]. intros Hloop. split; [by eexists |].
  split; [by eexists | done].
Qed.

Lemma MsgCreateBatch_checkIssuance_None (iss : MsgCreateBatch.BatchIssuance) :
  MsgCreateBatch.checkIssuance iss = None <-> issuance_ok iss.
Proof.
  unfold MsgCreateBatch.checkIssuance, issuance_ok, retirement_ok,
    valid_address.
  destruct (AccAddressFromBech32 (MsgCreateBatch.Recipient iss))
    as [addr | e].
  2: { split; [done |]. by intros [[addr ?] _]. }
  destruct (decide (MsgCreateBatch.TradableAmount iss <> "")) as [Ht | Ht].
  - destruct (ParseNonNegativeDecimal (MsgCreateBatch.TradableAmount iss))
      as [tradable | e].
    2: { split; [done |]. intros (_ & Hpt & _).
         by destruct (Hpt Ht) as [tradable ?]. }
    destruct (decide (MsgCreateBatch.RetiredAmount iss <> "")) as [Hr | Hr].
    + destruct (ParseNonNegativeDecimal (MsgCreateBatch.RetiredAmount iss))
        as [retired | e].
      2: { split; [done |]. intros (_ & _ & Hpr).
           by destruct (Hpr Hr) as [retired [? _]]. }
      split.
      * intros Hloc. split; [by eexists |]. split; [by eexists |].
        intros _. exists retired. split; [done |].
        intros Hz. by rewrite Hz in Hloc.
      * intros (_ & _ & Hpr). destruct (Hpr Hr) as [retired' [[= <-] Hloc]].
        destruct (IsZero retired); [done |]. by apply Hloc.
    + split; [| done]. intros _.
      split; [by eexists |]. split; [by eexists | done].
  - destruct (decide (MsgCreateBatch.RetiredAmount iss <> "")) as [Hr | Hr].
    + destruct (ParseNonNegativeDecimal (MsgCreateBatch.RetiredAmount iss))
        as [retired | e].
      2: { split; [done |]. intros (_ & _ & Hpr).
           by destruct (Hpr Hr) as [retired [? _]]. }
      split.
      * intros Hloc. split; [by eexists |]. split; [done |].
        intros _. exists retired. split; [done |].
        intros Hz. by rewrite Hz in Hloc.
      * intros (_ & _ & Hpr). destruct (Hpr Hr) as [retired' [[= <-] Hloc]].
        destruct (IsZero retired); [done |]. by apply Hloc.
    + split; [| done]. intros _. split; [by eexists | done].
Qed.

Lemma MsgCreateBatch_issuanceLoop_None
    (issuance : list MsgCreateBatch.BatchIssuance) :
  MsgCreateBatch.issuanceLoop issuance = None <-> Forall issuance_ok issuance.
Proof.
  induction issuance as [| iss rest IH]; simpl.
  - split; [constructor | done].
  - rewrite Forall_cons, <- MsgCreateBatch_checkIssuance_None, <- IH.
    destruct (MsgCreateBatch.checkIssuance iss); [| tauto].
    split; [done |]. by intros [? _].
Qed.

(** X25. [MsgCreateBatch.ValidateBasic] accepts a message exactly when the
    issuer is a valid address, both dates are given and the end date is not
    before the start date, the class identifier and the project location are
    valid, and every issuance has a valid recipient, amounts that parse as
    non-negative decimals when they are not empty and, when the retired
    amount is not zero, a valid retirement location. *)
Theorem MsgCreateBatch_ValidateBasic_None (m : MsgCreateBatch.t) :
  MsgCreateBatch.ValidateBasic m = None
  <-> valid_address (MsgCreateBatch.Issuer m)
      /\ (exists startDate endDate,
            MsgCreateBatch.StartDate m = Some startDate
            /\ MsgCreateBatch.EndDate m = Some endDate
            /\ startDate <= endDate)
      /\ ValidateClassID (MsgCreateBatch.ClassId m) = None
      /\ validateLocation (MsgCreateBatch.ProjectLocation m) = None
      /\ Forall issuance_ok (MsgCreateBatch.Issuance m).
Proof.
  rewrite <- MsgCreateBatch_issuanceLoop_None.
  unfold MsgCreateBatch.ValidateBasic, valid_address.
  destruct (AccAddressFromBech32 (MsgCreateBatch.Issuer m)) as [addr | err].
  2: { split; [done |]. by intros [[addr Haddr] _]. }
  destruct (MsgCreateBatch.StartDate m) as [startDate |].
  2: { split; [done |]. by intros (_ & (? & ? & ? & _) & _). }
  destruct (MsgCreateBatch.EndDate m) as [endDate |].
  2: { split; [done |]. by intros (_ & (? & ? & _ & ? & _) & _). }
  destruct (Z.ltb_spec endDate startDate) as [Hlt | Hge].
  { split; [done |]. intros (_ & (s & e & [= <-] & [= <-] & ?) & _). lia. }
  destruct (ValidateClassID (MsgCreateBatch.ClassId m)).
  { split; [done |]. by intros (_ & _ & ? & _). }
  destruct (validateLocation (MsgCreateBatch.ProjectLocation m)).
  { split; [done |]. by intros (_ & _ & _ & ? & _). }
  split; [| tauto]. intros Hloop. split; [by eexists |].
  split; [by eexists _, _ | done].
Qed.

(** X26. A message that passes [ValidateBasic] has a signer: [GetSigners]
    does not panic on it and returns one address, for each of the five
    messages. *)
Theorem GetSigners_after_ValidateBasic :
  (forall m, MsgCreateClass.ValidateBasic m = None ->
             exists addr, MsgCreateClass.GetSigners m = Ok [addr])
  /\ (forall m, MsgCreateBatch.ValidateBasic m = None ->
                exists addr, MsgCreateBatch.GetSigners m = Ok [addr])
  /\ (forall m, MsgSend.ValidateBasic m = None ->
                exists addr, MsgSend.GetSigners m = Ok [addr])
  /\ (forall m, MsgRetire.ValidateBasic m = None ->
                exists addr, MsgRetire.GetSigners m = Ok [addr])
  /\ (forall m, MsgCancel.ValidateBasic m = None ->
                exists addr, MsgCancel.GetSigners m = Ok [addr]).
Proof.
  repeat split; intros m.
  - unfold MsgCreateClass.ValidateBasic, MsgCreateClass.GetSigners.
    destruct (AccAddressFromBech32 _); [by eexists | done].
  - unfold MsgCreateBatch.ValidateBasic, MsgCreateBatch.GetSigners.
    destruct (AccAddressFromBech32 _); [by eexists | done].
  - unfold MsgSend.ValidateBasic, MsgSend.GetSigners.
    destruct (AccAddressFromBech32 _); [by eexists | done].
  - unfold MsgRetire.ValidateBasic, MsgRetire.GetSigners.
    destruct (AccAddressFromBech32 _); [by eexists | done].
  - unfold MsgCancel.ValidateBasic, MsgCancel.GetSigners.
    destruct (AccAddressFromBech32 _); [by eexists | done].
Qed.

End MessagesWithAmounts.

(** The validations at work on the sample imports. *)
Lemma ValidateBasic_samples :
  MsgCancel.ValidateBasic (H := sampleImports)
    {| MsgCancel.Holder := "regen1xyz";
       MsgCancel.Credits :=
         [{| MsgCancel.BatchDenom := "C01-20200101-20210101-001";
             MsgCancel.Amount := "10" |}] |} = None
  /\ MsgCancel.ValidateBasic (H := sampleImports)
       {| MsgCancel.Holder := "regen1xyz"; MsgCancel.Credits := [] |}
     = Some (sdkerrors.Wrap sdkerrors.ErrInvalidRequest
               "credits should not be empty")
  /\ MsgCreateClass.ValidateBasic (H := sampleImports)
       {| MsgCreateClass.Admin := "regen1xyz";
          MsgCreateClass.Issuers := ["regen1abc"; "cosmos1abc"];
          MsgCreateClass.CreditType := "carbon" |}
     = Some (sdkerrors.Wrap sdkerrors.ErrInvalidRequest
               "decoding bech32 failed")
  /\ MsgCreateBatch.ValidateBasic (H := sampleImports)
       {| MsgCreateBatch.Issuer := "regen1xyz";
          MsgCreateBatch.ClassId := "C01";
          MsgCreateBatch.Issuance :=
            [{| MsgCreateBatch.Recipient := "regen1abc";
                MsgCreateBatch.TradableAmount := "";
                MsgCreateBatch.RetiredAmount := "";
                MsgCreateBatch.RetirementLocation := "" |}];
          MsgCreateBatch.StartDate := Some 10;
          MsgCreateBatch.EndDate := Some 10;
          MsgCreateBatch.ProjectLocation := "AB" |} = None.
Proof. repeat split; reflexivity. Qed.

(** ** [Contains] and the primary key *)

(** X27. [Contains] panics exactly when the object has the type of the table
    and one of its primary-key parts cannot be encoded; with every part
    encodable it answers what [table.Has] answers for the primary key. *)
Theorem Contains_panics_iff
    (assertCorrectType : string -> PrimaryKeyed -> option error)
    (table_Has : table -> KVStore -> list byte -> bool)
    (a : PrimaryKeyTable) (ctx : KVStore) (obj : PrimaryKeyed) :
  ((exists msg, Contains assertCorrectType table_Has a ctx obj = Panic msg)
   <-> assertCorrectType (model (ptable a)) obj = None
       /\ ~ Forall field_accepted (PrimaryKeyFields obj))
  /\ (assertCorrectType (model (ptable a)) obj = None ->
      Forall field_accepted (PrimaryKeyFields obj) ->
      Contains assertCorrectType table_Has a ctx obj
        = Ok (table_Has (ptable a) ctx
                (concat (fieldEncoding <$> PrimaryKeyFields obj)))).
Proof.
  unfold Contains, PrimaryKey, buildPrimaryKey.
  destruct (assertCorrectType (model (ptable a)) obj) as [err |].
  { split; [| done]. split; [by intros [msg ?] | by intros [? _]]. }
  split.
  - destruct (fieldsBytes (PrimaryKeyFields obj)) as [bss | msg] eqn:Hbss;
      simpl.
    + split; [by intros [msg ?] |]. intros [_ Hnot]. destruct Hnot.
      by eapply fieldsBytes_Ok_inv.
    + split; [| by eexists]. intros _. split; [done |]. intros Hok.
      by rewrite fieldsBytes_accepted in Hbss.
  - intros _ Hok. rewrite fieldsBytes_accepted by done. simpl.
    by rewrite foldl_append.
Qed.

Lemma Contains_panics_iff_witness :
  let a := {| ptable := {| prefix := 0x10; model := "GroupMember" |} |} in
  let obj := {| TypeOf := "GroupMember";
                PrimaryKeyFields := [VUint64 1; VBytes [7]] |} in
  let ctx : KVStore := {[ 0x10 :: EncodeSequence 1 ++ [1; 7] := [42] ]} in
  Contains sameTypeCheck storeHas a ctx obj = Ok true.
Proof.
  intros a obj ctx.
  destruct (Contains_panics_iff sameTypeCheck storeHas a ctx obj)
    as [_ Hok].
  rewrite Hok; [by vm_compute | reflexivity |].
  by repeat constructor.
Defined.
